(** * simplepool: a fixed-capacity object pool over a buffered channel

    Shallow embedding of [config.go] and [pool.go].  The pool is a pointer to
    a struct holding two channels; here it is a record that is threaded
    through every operation.  Channel operations are the atomic steps:
    [New] runs before the pool is shared and is a plain function, [Get] is
    one [select], [Put] is one send, and [Stop] is a small-step activation
    whose program counter names the source line it is about to execute. *)

From Stdlib Require Import ZArith Lia.
From stdpp Require Import base option list strings.

Local Open Scope Z_scope.
Local Open Scope nat_scope.

(** ** Errors

    A Go [error] is known to its callers through [Error()] and [Unwrap()].
    [errorString] is the value built by [errors.New]; [wrapError] is the value
    built by [fmt.Errorf] when the format has one [%w] verb: it stores the
    formatted message and the operand of [%w], nothing else.  Structural
    equality is coarser than Go's pointer identity, so [errors_Is] answering
    [false] here means [errors.Is] answers [false] in Go. *)

Inductive error : Type :=
  | errorString (s : string)
  | wrapError (msg : string) (err : error).

Fixpoint error_eqb (a b : error) : bool :=
  match a, b with
  | errorString s, errorString t => bool_decide (s = t)
  | wrapError m e, wrapError m' e' => bool_decide (m = m') && error_eqb e e'
  | _, _ => false
  end.

Definition errors_New (s : string) : error := errorString s.

Definition Error (e : error) : string :=
  match e with
  | errorString s => s
  | wrapError msg _ => msg
  end.

Definition Unwrap (e : error) : option error :=
  match e with
  | errorString _ => None
  | wrapError _ err => Some err
  end.

Fixpoint errors_Is (err target : error) : bool :=
  error_eqb err target ||
  match err with
  | errorString _ => false
  | wrapError _ inner => errors_Is inner target
  end.

(** [fmt.Errorf("%w: %v", a, b)]: the message shows both operands, only the
    first one is kept for [Unwrap]. *)
Definition fmt_Errorf_w_v (a b : error) : error :=
  wrapError (Error a +:+ ": " +:+ Error b) a.

Definition ErrNew : error := errors_New "failed to make new pool object".
Definition ErrStoppingOrStopped : error :=
  errors_New "pool is stopping or has stopped".

(** [context.Canceled] and [context.DeadlineExceeded], the two values
    [ctx.Err()] can return once [ctx.Done()] is closed. *)
Definition context_Canceled : error := errors_New "context canceled".
Definition context_DeadlineExceeded : error :=
  errors_New "context deadline exceeded".

(** ** Channels

    A buffered channel is its buffer, its capacity and whether it was closed.
    [send] and [recv] answer [None] where the Go operation would block. *)

Record chan (A : Type) : Type := Chan {
  buf : list A;
  ccap : nat;
  closed : bool;
}.
Arguments Chan {A} _ _ _.
Arguments buf {A} _.
Arguments ccap {A} _.
Arguments closed {A} _.

Section Channels.
Context {A : Type}.

Definition make_chan (n : nat) : chan A := Chan [] n false.

Definition chan_len (c : chan A) : nat := length (buf c).
Definition chan_cap (c : chan A) : nat := ccap c.

(** [c <- x] on a channel that is not closed. *)
Definition send (c : chan A) (x : A) : option (chan A) :=
  if decide (chan_len c < chan_cap c)
  then Some (Chan (buf c ++ [x]) (ccap c) (closed c))
  else None.

(** [<-c]: the oldest buffered value; on a drained closed channel the zero
    value, at once. *)
Definition recv (zero : A) (c : chan A) : option (A * chan A) :=
  match buf c with
  | x :: rest => Some (x, Chan rest (ccap c) (closed c))
  | [] => if closed c then Some (zero, c) else None
  end.

Definition close (c : chan A) : chan A := Chan (buf c) (ccap c) true.
End Channels.

(** What a sequential piece of code does: it returns, it blocks for ever, or
    it panics. *)
Inductive outcome (A : Type) : Type :=
  | Returns (a : A)
  | Blocks
  | Panics.
Arguments Returns {A} _.
Arguments Blocks {A}.
Arguments Panics {A}.

(** ** Contexts

    [ctx.Done()] is closed exactly when [ctx.Err()] is not nil; a context is
    therefore either still active or cancelled with its error. *)
Inductive context_Context : Type :=
  | ctx_active
  | ctx_cancelled (err : error).

Definition ctx_Done (ctx : context_Context) : chan unit :=
  match ctx with
  | ctx_active => Chan [] 0 false
  | ctx_cancelled _ => Chan [] 0 true
  end.

Definition ctx_Err (ctx : context_Context) : option error :=
  match ctx with
  | ctx_active => None
  | ctx_cancelled e => Some e
  end.

Section Simplepool.
(** [T] is the pooled type, [zero] its zero value.  [W] is the state the
    caller's constructor and destructor act on; the pool itself never looks
    at it. *)
Context {T : Type} `{!EqDecision T}.
Variable zero : T.
Variable W : Type.

(** *** config.go *)

Record Config : Type := mkConfig {
  Count : Z;
  NewFunc : option (W → (T * option error) * W);
  DestroyFunc : option (T → W → W);
}.

Definition Check (c : Config) : option error :=
  if decide (Count c < 0)%Z
  then Some (errors_New "count must be greater than or equal to zero")
  else match NewFunc c with
       | None => Some (errors_New "newFunc is required")
       | Some _ => None
       end.

(** *** pool.go *)

Record Pool : Type := mkPool {
  newFunc : option (W → (T * option error) * W);
  destroyFunc : option (T → W → W);
  idle : chan T;
  stopping : chan unit;
}.

Definition with_idle (p : Pool) (c : chan T) : Pool :=
  mkPool (newFunc p) (destroyFunc p) c (stopping p).

Definition with_stopping (p : Pool) (c : chan unit) : Pool :=
  mkPool (newFunc p) (destroyFunc p) (idle p) c.

(** [if p.destroyFunc != nil { p.destroyFunc(object) }] *)
Definition destroy (p : Pool) (object : T) (w : W) : W :=
  match destroyFunc p with
  | Some f => f object w
  | None => w
  end.

(** The rollback loop of [New], lines 53-58: [k] receives from [p.idle],
    each followed by the destructor. *)
Fixpoint rollback (k : nat) (p : Pool) (w : W) : outcome (Pool * W) :=
  match k with
  | 0 => Returns (p, w)
  | S k' =>
      match recv zero (idle p) with
      | None => Blocks
      | Some (object, c) => rollback k' (with_idle p c) (destroy p object w)
      end
  end.

(** The construction loop of [New], lines 50-62, with [k] iterations to
    go. *)
Fixpoint New_loop (k : nat) (p : Pool) (w : W)
  : outcome ((option Pool * option error) * W) :=
  match k with
  | 0 => Returns ((Some p, None), w)
  | S k' =>
      match newFunc p with
      | None => Panics
      | Some f =>
          let '((object, err), w1) := f w in
          match err with
          | Some e =>
              match rollback (chan_len (idle p)) p w1 with
              | Returns (_, w2) =>
                  Returns ((None, Some (fmt_Errorf_w_v ErrNew e)), w2)
              | Blocks => Blocks
              | Panics => Panics
              end
          | None =>
              match send (idle p) object with
              | None => Blocks
              | Some c => New_loop k' (with_idle p c) w1
              end
          end
      end
  end.

(** The struct literal of lines 43-48. *)
Definition empty_pool (config : Config) : Pool :=
  mkPool (NewFunc config) (DestroyFunc config)
         (make_chan (Z.to_nat (Count config))) (make_chan 0).

Definition New (config : Config) (w : W)
  : outcome ((option Pool * option error) * W) :=
  match Check config with
  | Some err => Returns ((None, Some err), w)
  | None =>
      let p := empty_pool config in
      New_loop (chan_cap (idle p)) p w
  end.

(** The three communications of the [select] in [Get], in source order.  Go
    picks any one that can proceed; there is no priority among them. *)
Inductive select_case : Type := case_idle | case_Done | case_stopping.

(** [Get] committing to one case: [None] when that communication cannot
    proceed. *)
Definition Get (c : select_case) (ctx : context_Context) (p : Pool)
  : option ((T * option error) * Pool) :=
  match c with
  | case_idle =>
      '(object, ch) ← recv zero (idle p);
      Some ((object, None), with_idle p ch)
  | case_Done =>
      _ ← recv () (ctx_Done ctx);
      Some ((zero, ctx_Err ctx), p)
  | case_stopping =>
      _ ← recv () (stopping p);
      Some ((zero, Some ErrStoppingOrStopped), p)
  end.

(** Everything a call of [Get] may do in the state [p]; the empty list means
    the call blocks. *)
Definition Get_outcomes (ctx : context_Context) (p : Pool)
  : list ((T * option error) * Pool) :=
  omap (λ c, Get c ctx p) [case_idle; case_Done; case_stopping].

(** [Put] is one send. *)
Definition Put (object : T) (p : Pool) : option Pool :=
  c ← send (idle p) object; Some (with_idle p c).

(** [Put] called once for each object of a list, first to last;
    [None] if one of the calls would block. *)
Fixpoint Puts (l : list T) (p : Pool) : option Pool :=
  match l with
  | [] => Some p
  | object :: l' => p' ← Put object p; Puts l' p'
  end.

(** [k] calls of [Get] in a row that all return an object: the objects in
    the order they were returned.  [None] if one of the calls finds no
    object. *)
Fixpoint Gets (k : nat) (ctx : context_Context) (p : Pool)
  : option (list T * Pool) :=
  match k with
  | 0 => Some ([], p)
  | S k' =>
      '((object, _), p1) ← Get case_idle ctx p;
      '(l, p2) ← Gets k' ctx p1;
      Some (object :: l, p2)
  end.

(** *** Stop, one source line at a time

    Several goroutines may be inside [Stop]; each activation is a program
    counter.  The [select] with a [default] branch and the [close] that
    follows it are two steps, as they are in Go. *)
Inductive stop_pc : Type :=
  | pc_select                          (* line 74 *)
  | pc_close                           (* line 78 *)
  | pc_loop (k : nat)                  (* line 81, [k] iterations to go *)
  | pc_destroy (object : T) (k : nat)  (* line 83, [object] in hand *)
  | pc_return                          (* line 76 *)
  | pc_end                             (* line 87 *)
  | pc_panic.                          (* close of a closed channel *)

(** [None]: the activation has finished or is blocked on [<-p.idle]. *)
Definition Stop_step (pc : stop_pc) (p : Pool) (w : W)
  : option (stop_pc * Pool * W) :=
  match pc with
  | pc_select =>
      match recv () (stopping p) with
      | Some _ => Some (pc_return, p, w)
      | None => Some (pc_close, p, w)
      end
  | pc_close =>
      if closed (stopping p)
      then Some (pc_panic, p, w)
      else Some (pc_loop (chan_cap (idle p)),
                 with_stopping p (close (stopping p)), w)
  | pc_loop 0 => Some (pc_end, p, w)
  | pc_loop (S k) =>
      '(object, c) ← recv zero (idle p);
      Some (pc_destroy object k, with_idle p c, w)
  | pc_destroy object k => Some (pc_loop k, p, destroy p object w)
  | pc_return | pc_end | pc_panic => None
  end.

(** An activation left alone for [n] steps; it stops early when it can no
    longer move. *)
Fixpoint Stop_steps (n : nat) (pc : stop_pc) (p : Pool) (w : W)
  : stop_pc * Pool * W :=
  match n with
  | 0 => (pc, p, w)
  | S n' =>
      match Stop_step pc p w with
      | Some (pc', p', w') => Stop_steps n' pc' p' w'
      | None => (pc, p, w)
      end
  end.

(** A whole call of [Stop] with nothing else running: enough steps for the
    check, the close and [cap] receive-destroy pairs. *)
Definition Stop (p : Pool) (w : W) : stop_pc * Pool * W :=
  Stop_steps (3 + 2 * chan_cap (idle p)) pc_select p w.

(** *** The pool and its callers

    [borrowed] and [destroyed] are bookkeeping the program does not keep:
    the objects handed out by [Get] and not yet put back, and the objects
    that went through lines 83-85, in that order. *)
Record System : Type := mkSystem {
  pool : Pool;
  world : W;
  borrowed : list T;
  stops : list stop_pc;
  destroyed : list T;
}.

Inductive action : Type :=
  | call_Get (ctx : context_Context) (c : select_case)
  | call_Put (object : T)
  | call_Stop
  | step_Stop (i : nat).

(** Remove one occurrence of [x]; [None] when there is none. *)
Fixpoint take_out (x : T) (l : list T) : option (list T) :=
  match l with
  | [] => None
  | y :: l' =>
      if decide (x = y) then Some l' else cons y <$> take_out x l'
  end.

Definition in_hand (pc : stop_pc) : list T :=
  match pc with
  | pc_destroy object _ => [object]
  | _ => []
  end.

(** One atomic step.  [None]: the action cannot happen now (the call would
    block, the activation does not exist or has finished) or it is not a
    correct use of the pool ([Put] of an object that is not borrowed). *)
Definition step (a : action) (s : System) : option System :=
  match a with
  | call_Get ctx c =>
      '((object, err), p) ← Get c ctx (pool s);
      Some (mkSystem p (world s)
              (match err with
               | None => object :: borrowed s
               | Some _ => borrowed s
               end)
              (stops s) (destroyed s))
  | call_Put object =>
      b ← take_out object (borrowed s);
      p ← Put object (pool s);
      Some (mkSystem p (world s) b (stops s) (destroyed s))
  | call_Stop =>
      Some (mkSystem (pool s) (world s) (borrowed s)
              (stops s ++ [pc_select]) (destroyed s))
  | step_Stop i =>
      pc ← stops s !! i;
      '(pc', p, w) ← Stop_step pc (pool s) (world s);
      Some (mkSystem p w (borrowed s) (<[i:=pc']> (stops s))
              (destroyed s ++ in_hand pc))
  end.

Fixpoint run (acts : list action) (s : System) : option System :=
  match acts with
  | [] => Some s
  | a :: acts' => s' ← step a s; run acts' s'
  end.

(** The system right after a successful [New]. *)
Definition start (p : Pool) (w : W) : System := mkSystem p w [] [] [].

(** Objects an activation of [Stop] still has to receive. *)
Definition owes (pc : stop_pc) : nat :=
  match pc with
  | pc_loop k => k
  | pc_destroy _ k => k
  | _ => 0
  end.

(** The activation is past the [close] of line 78: 1 if so, 0 if not. *)
Definition tearing_down (pc : stop_pc) : nat :=
  match pc with
  | pc_loop _ | pc_destroy _ _ | pc_end => 1
  | _ => 0
  end.

(** The destructor applied to each object of a list, first to last. *)
Definition destroy_all (p : Pool) (l : list T) (w : W) : W :=
  foldl (λ w object, destroy p object w) w l.

(** A constructor called [k] times in a row, all calls succeeding: the
    objects in the order they were made and the state it leaves. *)
Fixpoint construct (f : W → (T * option error) * W) (k : nat) (w : W)
  : option (list T * W) :=
  match k with
  | 0 => Some ([], w)
  | S k' =>
      match f w with
      | ((object, None), w1) =>
          '(l, w2) ← construct f k' w1; Some (object :: l, w2)
      | ((_, Some _), _) => None
      end
  end.

(** *** Schedules

    [drain i n]: activation [i] of [Stop] receives and destroys [n] times.
    [put_back i l]: the callers put back the objects of [l], first to last,
    and activation [i] receives and destroys each one as it arrives.
    [finish_Stop i n l]: both in a row, then the step that leaves the loop. *)
Fixpoint drain (i n : nat) : list action :=
  match n with
  | 0 => []
  | S n' => step_Stop i :: step_Stop i :: drain i n'
  end.

Fixpoint put_back (i : nat) (l : list T) : list action :=
  match l with
  | [] => []
  | object :: l' =>
      call_Put object :: step_Stop i :: step_Stop i :: put_back i l'
  end.

Definition finish_Stop (i n : nat) (l : list T) : list action :=
  drain i n ++ put_back i l ++ [step_Stop i].

(** A new call of [Stop], which becomes activation [i], up to its loop. *)
Definition begin_Stop (i : nat) : list action :=
  [call_Stop; step_Stop i; step_Stop i].

(** *** Invariant of the running system

    [p0] is the pool as [New] returned it and [w0] the caller's state at
    that moment. *)

Definition ready (p0 : Pool) : Prop :=
  length (buf (idle p0)) = ccap (idle p0) ∧
  closed (idle p0) = false ∧
  stopping p0 = Chan [] 0 false.

Definition inv (p0 : Pool) (w0 : W) (s : System) : Prop :=
  length (buf (idle p0)) = ccap (idle p0) ∧
  destroyFunc (pool s) = destroyFunc p0 ∧
  ccap (idle (pool s)) = ccap (idle p0) ∧
  closed (idle (pool s)) = false ∧
  buf (stopping (pool s)) = [] ∧
  buf (idle (pool s)) ++ borrowed s ++ (stops s ≫= in_hand) ++ destroyed s
    ≡ₚ buf (idle p0) ∧
  sum_list_with owes (stops s) =
    (if closed (stopping (pool s))
     then length (buf (idle (pool s))) + length (borrowed s) else 0) ∧
  sum_list_with tearing_down (stops s) =
    (if closed (stopping (pool s)) then 1 else 0) ∧
  (closed (stopping (pool s)) = false → destroyed s = []) ∧
  world s = destroy_all p0 (destroyed s) w0.

End Simplepool.

Arguments Config T W : clear implicits.
Arguments Pool T W : clear implicits.
Arguments System T W : clear implicits.
Arguments stop_pc T : clear implicits.
Arguments action T : clear implicits.
Arguments rollback {T} zero {W} _ _ _.
Arguments New_loop {T} zero {W} _ _ _.
Arguments New {T} zero {W} _ _.
Arguments Get {T} zero {W} _ _ _.
Arguments Get_outcomes {T} zero {W} _ _.
Arguments Gets {T} zero {W} _ _ _.
Arguments Puts {T W} _ _.
Arguments Stop_step {T} zero {W} _ _ _.
Arguments Stop_steps {T} zero {W} _ _ _ _.
Arguments Stop {T} zero {W} _ _.
Arguments step {T _} zero {W} _ _.
Arguments run {T _} zero {W} _ _.
Arguments mkConfig {T W} _ _ _.
Arguments Count {T W} _.
Arguments NewFunc {T W} _.
Arguments DestroyFunc {T W} _.
Arguments mkPool {T W} _ _ _ _.
Arguments newFunc {T W} _.
Arguments destroyFunc {T W} _.
Arguments idle {T W} _.
Arguments stopping {T W} _.
Arguments with_idle {T W} _ _.
Arguments with_stopping {T W} _ _.
Arguments destroy {T W} _ _ _.
Arguments destroy_all {T W} _ _ _.
Arguments construct {T W} _ _ _.
Arguments Check {T W} _.
Arguments empty_pool {T W} _.
Arguments pc_select {T}.
Arguments pc_close {T}.
Arguments pc_loop {T} _.
Arguments pc_destroy {T} _ _.
Arguments pc_return {T}.
Arguments pc_end {T}.
Arguments pc_panic {T}.
Arguments in_hand {T} _.
Arguments owes {T} _.
Arguments tearing_down {T} _.
Arguments mkSystem {T W} _ _ _ _ _.
Arguments pool {T W} _.
Arguments world {T W} _.
Arguments borrowed {T W} _.
Arguments stops {T W} _.
Arguments destroyed {T W} _.
Arguments start {T W} _ _.
Arguments call_Get {T} _ _.
Arguments call_Put {T} _.
Arguments call_Stop {T}.
Arguments step_Stop {T} _.
Arguments take_out {T _} _ _.
Arguments Put {T W} _ _.
Arguments ready {T W} _.
Arguments drain {T} _ _.
Arguments put_back {T} _ _.
Arguments finish_Stop {T} _ _ _.
Arguments begin_Stop {T} _.
Arguments inv {T W} _ _ _.

(** ** A concrete pool

    Objects are numbers and the zero value is 0.  The caller's state is the
    number of constructor calls made so far and the log of destructor calls.
    [fresh] hands out 1, 2, 3, ...; [failing_at k] does the same but fails on
    call number [k]. *)
Module Demo.
Definition state : Type := nat * list nat.

Definition fresh (w : state) : (nat * option error) * state :=
  ((S w.1, None), (S w.1, w.2)).

Definition boom : error := errors_New "boom".

Definition failing_at (k : nat) (w : state) : (nat * option error) * state :=
  if decide (S w.1 = k)
  then ((0, Some boom), (S w.1, w.2))
  else ((S w.1, None), (S w.1, w.2)).

Definition log_destroy (object : nat) (w : state) : state :=
  (w.1, w.2 ++ [object]).

Definition config (n : Z) : Config nat state :=
  mkConfig n (Some fresh) (Some log_destroy).

Definition failing_config (n : Z) (k : nat) : Config nat state :=
  mkConfig n (Some (failing_at k)) (Some log_destroy).

Definition w0 : state := (0, []).

(** A pool of capacity [n] all of whose objects are borrowed. *)
Definition lent_out (n : nat) : Pool nat state :=
  mkPool (Some fresh) (Some log_destroy)
         (Chan [] n false) (Chan [] 0 false).

Definition cancelled : context_Context := ctx_cancelled context_Canceled.

(** One call of [Stop] run to its end in a pool with one idle object. *)
Definition stop_to_end : list (action nat) :=
  [call_Stop; step_Stop 0; step_Stop 0; step_Stop 0; step_Stop 0;
   step_Stop 0].

(** One object is borrowed, [Stop] is called and raises the signal. *)
Definition get_then_stop : list (action nat) :=
  [call_Get ctx_active case_idle; call_Stop; step_Stop 0; step_Stop 0].

(** The same with capacity 2: [Stop] destroys the idle object, waits, and
    finishes after the borrowed one is put back. *)
Definition stop_with_busy_object : list (action nat) :=
  get_then_stop ++
  [step_Stop 0; step_Stop 0; call_Put 1; step_Stop 0; step_Stop 0;
   step_Stop 0].

(** A pool of capacity 3 with 1, 2, 3 idle, as [New] returns it. *)
Definition three_idle : Pool nat state :=
  with_idle (lent_out 3) (Chan [1; 2; 3] 3 false).
End Demo.

(** * Properties *)

(** ** Lists of activations *)

Section Activations.
Context {A B : Type}.

Lemma sum_list_insert (f : A → nat) (l : list A) (i : nat) (x y : A) :
  l !! i = Some x →
  sum_list_with f (<[i:=y]> l) + f x = sum_list_with f l + f y.
Proof.
  revert i; induction l as [|a l IH]; intros [|i] Hi; simplify_eq/=.
  - lia.
  - specialize (IH _ Hi). lia.
Qed.

Lemma bind_insert_perm (h : A → list B) (l : list A) (i : nat) (x y : A) :
  l !! i = Some x →
  (<[i:=y]> l ≫= h) ++ h x ≡ₚ (l ≫= h) ++ h y.
Proof.
  revert i; induction l as [|a l IH]; intros [|i] Hi; simplify_eq/=.
  - rewrite <-!(assoc_L (++)). rewrite (comm (++) (l ≫= h) (h x)).
    rewrite (assoc (++) (h y)), (comm (++) (h y) (h x)).
    rewrite <-(assoc (++)). f_equiv. apply (comm (++)).
  - rewrite <-!(assoc_L (++)). f_equiv. by apply IH.
Qed.

Lemma sum_list_zero (f : A → nat) (l : list A) :
  sum_list_with f l = 0 → ∀ x, x ∈ l → f x = 0.
Proof.
  intros Hs x Hx. pose proof (sum_list_with_in x f l Hx). lia.
Qed.

Lemma lookup_sum_le (f : A → nat) (l : list A) (i : nat) (x : A) :
  l !! i = Some x → f x ≤ sum_list_with f l.
Proof.
  revert i; induction l as [|a l IH]; intros [|i] Hi; simplify_eq/=.
  - lia.
  - specialize (IH _ Hi). lia.
Qed.

Lemma bind_nil_all (h : A → list B) (l : list A) :
  (∀ x, x ∈ l → h x = []) → l ≫= h = [].
Proof.
  induction l as [|a l IH]; intros Hl; [done|].
  rewrite bind_cons, (Hl a) by left. simpl.
  apply IH. intros x Hx. apply Hl. by right.
Qed.
Lemma lookup_two_l (l : list A) (a b : A) :
  (l ++ [a; b]) !! length l = Some a.
Proof. induction l; simpl; done. Qed.

Lemma lookup_two_r (l : list A) (a b : A) :
  (l ++ [a; b]) !! S (length l) = Some b.
Proof. induction l; simpl; done. Qed.

Lemma insert_two_l (l : list A) (a b c : A) :
  <[length l:=c]> (l ++ [a; b]) = l ++ [c; b].
Proof. induction l; simpl; [done|]. by f_equal. Qed.

Lemma insert_two_r (l : list A) (a b c : A) :
  <[S (length l):=c]> (l ++ [a; b]) = l ++ [a; c].
Proof. induction l; simpl; [done|]. by f_equal. Qed.
End Activations.

Section Properties.
Context {T : Type} `{!EqDecision T} (zero : T) {W : Type}.
Implicit Types (p : Pool T W) (w : W) (s : System T W) (l : list T).

(** ** Channels and small facts *)

Lemma destroy_with_idle p c x w : destroy (with_idle p c) x w = destroy p x w.
Proof. done. Qed.

Lemma destroy_all_app p l1 l2 w :
  destroy_all p (l1 ++ l2) w = destroy_all p l2 (destroy_all p l1 w).
Proof. unfold destroy_all. by rewrite foldl_app. Qed.

Lemma destroy_all_with_idle p c l w :
  destroy_all (with_idle p c) l w = destroy_all p l w.
Proof. done. Qed.

Lemma take_out_perm (x : T) l b : take_out x l = Some b → l ≡ₚ x :: b.
Proof.
  revert b; induction l as [|y l IH]; intros b; simpl; [done|].
  case_decide as Hxy; [by intros [= <-]; subst|].
  destruct (take_out x l) as [b'|] eqn:E; simpl; [|done].
  intros [= <-]. rewrite (IH b' eq_refl). apply Permutation_swap.
Qed.

Lemma take_out_elem (x : T) l : x ∈ l → is_Some (take_out x l).
Proof.
  induction l as [|y l IH]; [by intros ?%elem_of_nil|].
  intros Hx; simpl. case_decide; [by eexists|].
  apply elem_of_cons in Hx as [?|Hx]; [done|].
  destruct (IH Hx) as [b ->]. by eexists.
Qed.

(** ** New *)

Lemma construct_length f k w l w' :
  construct f k w = Some (l, w') → length l = k.
Proof.
  revert w l; induction k as [|k IH]; intros w l; simpl.
  - by intros [= <- <-].
  - destruct (f w) as [[o [e|]] w1]; [done|].
    destruct (construct f k w1) as [[l1 w2]|] eqn:E; simpl; [|done].
    intros [= <- <-]. simpl. f_equal. eauto.
Qed.

(** Either all [k] calls succeed, or some call [j+1 <= k] is the first to
    fail. *)
Lemma construct_cases f k w :
  (∃ l w', construct f k w = Some (l, w')) ∨
  (∃ j l w1 o e w2, j < k ∧ construct f j w = Some (l, w1) ∧
                    f w1 = ((o, Some e), w2)).
Proof.
  revert w; induction k as [|k IH]; intros w.
  - left. by eexists _, _.
  - destruct (f w) as [[o [e|]] w1] eqn:Ef.
    + right. exists 0, [], w, o, e, w1. split; [lia|]. done.
    + destruct (IH w1) as [(l & w' & Hc)|(j & l & w2 & o' & e & w3 & Hj & Hc & Hf)].
      * left. exists (o :: l), w'. simpl. by rewrite Ef, Hc.
      * right. exists (S j), (o :: l), w2, o', e, w3.
        split; [lia|]. simpl. by rewrite Ef, Hc.
Qed.

Lemma rollback_drains l : ∀ p w rest,
  buf (idle p) = l ++ rest →
  rollback zero (length l) p w =
    Returns (with_idle p (Chan rest (ccap (idle p)) (closed (idle p))),
             destroy_all p l w).
Proof.
  induction l as [|x l IH]; intros p w rest Hb; simpl in *.
  - destruct p as [nf df [b c cl] st]; simpl in *. by subst.
  - unfold recv. rewrite Hb.
    rewrite (IH _ _ rest); [|done]. done.
Qed.

Lemma New_loop_ok f k : ∀ p w l w',
  newFunc p = Some f →
  chan_len (idle p) + k ≤ chan_cap (idle p) →
  construct f k w = Some (l, w') →
  New_loop zero k p w =
    Returns ((Some (with_idle p (Chan (buf (idle p) ++ l) (ccap (idle p))
                                      (closed (idle p)))), None), w').
Proof.
  induction k as [|k IH]; intros p w l w' Hf Hcap; simpl.
  - intros [= <- <-]. rewrite app_nil_r.
    by destruct p as [? ? [? ? ?] ?].
  - rewrite Hf. destruct (f w) as [[o [e|]] w1]; [done|].
    destruct (construct f k w1) as [[l1 w2]|] eqn:E; simpl; [|done].
    intros [= <- <-]. unfold send. rewrite decide_True by lia.
    erewrite IH; [|done| |done].
    + simpl. by rewrite <-(assoc_L (++)).
    + unfold chan_len, chan_cap in *. simpl. rewrite length_app. simpl. lia.
Qed.

Lemma New_loop_fails f k : ∀ j p w l w1 o e w2,
  newFunc p = Some f →
  chan_len (idle p) + k ≤ chan_cap (idle p) →
  j < k →
  construct f j w = Some (l, w1) →
  f w1 = ((o, Some e), w2) →
  New_loop zero k p w =
    Returns ((None, Some (fmt_Errorf_w_v ErrNew e)),
             destroy_all p (buf (idle p) ++ l) w2).
Proof.
  induction k as [|k IH]; intros j p w l w1 o e w2 Hf Hcap Hj; [lia|].
  destruct j as [|j]; simpl.
  - intros [= <- <-] Hfw. rewrite Hf, Hfw.
    unfold chan_len. rewrite (rollback_drains _ _ _ []).
    + by rewrite app_nil_r.
    + by rewrite app_nil_r.
  - rewrite Hf. destruct (f w) as [[o' [e'|]] w3]; [done|].
    destruct (construct f j w3) as [[l1 w4]|] eqn:E; simpl; [|done].
    intros [= <- <-] Hfw. unfold send. rewrite decide_True by lia.
    erewrite (IH j); [|done| |lia|done|done].
    + simpl. by rewrite <-(assoc_L (++)).
    + unfold chan_len, chan_cap in *. simpl. rewrite length_app. simpl. lia.
Qed.

Lemma New_success config w p w' :
  New zero config w = Returns ((Some p, None), w') →
  ∃ f l, NewFunc config = Some f ∧
         construct f (Z.to_nat (Count config)) w = Some (l, w') ∧
         p = mkPool (Some f) (DestroyFunc config)
                    (Chan l (Z.to_nat (Count config)) false) (Chan [] 0 false).
Proof.
  unfold New, Check. case_decide; [done|].
  destruct (NewFunc config) as [f|] eqn:Ef; [|done].
  set (p0 := empty_pool config).
  assert (Hnf : newFunc p0 = Some f) by done.
  assert (Hcap : chan_len (idle p0) + chan_cap (idle p0) ≤ chan_cap (idle p0))
    by (unfold chan_len; simpl; lia).
  destruct (construct_cases f (chan_cap (idle p0)) w)
    as [(l & w1 & Hc)|(j & l & w1 & o & e & w2 & Hj & Hc & Hf)].
  - rewrite (New_loop_ok f _ _ _ _ _ Hnf Hcap Hc).
    intros [= <- <-]. exists f, l. split; [done|]. split; [done|].
    unfold with_idle, p0, empty_pool; simpl. by rewrite Ef.
  - by rewrite (New_loop_fails f _ _ _ _ _ _ _ _ _ Hnf Hcap Hj Hc Hf).
Qed.

Lemma New_ready config w p w' :
  New zero config w = Returns ((Some p, None), w') →
  ready p ∧ ccap (idle p) = Z.to_nat (Count config).
Proof.
  intros (f & l & _ & Hc & ->)%New_success. apply construct_length in Hc.
  by repeat split.
Qed.

Lemma inv_start p0 w0 : ready p0 → inv p0 w0 (start p0 w0).
Proof.
  intros (Hlen & Hcl & Hst). unfold inv, start; simpl.
  rewrite Hst; simpl. split_and!; try done.
  by rewrite !app_nil_r.
Qed.

Lemma destroy_all_snoc p0 p l x w :
  destroyFunc p = destroyFunc p0 →
  destroy p x (destroy_all p0 l w) = destroy_all p0 (l ++ [x]) w.
Proof.
  intros Hd. rewrite destroy_all_app. unfold destroy_all, destroy; simpl.
  by rewrite Hd.
Qed.

Lemma in_hand_none (st : list (stop_pc T)) :
  sum_list_with tearing_down st = 0 → st ≫= in_hand = [].
Proof.
  intros Hs. apply bind_nil_all. intros pc Hpc.
  pose proof (sum_list_zero _ _ Hs pc Hpc). by destruct pc.
Qed.

Lemma step_inv p0 w0 a s s' :
  inv p0 w0 s → step zero a s = Some s' → inv p0 w0 s'.
Proof.
  intros (Hp0 & Hdf & Hcap & Hic & Hsb & Hperm & Howes & Htear & Hd & Hw) Hstep.
  destruct s as [[nf df [ib ic icl] [sb sc scl]] w b st d].
  simpl in *. subst icl sb.
  destruct a as [ctx c|object| |i]; simpl in Hstep.
  - destruct c; unfold recv in Hstep; simpl in Hstep.
    + destruct ib as [|x ib]; [done|]. simplify_eq/=.
      unfold inv; simpl. split_and!; try done.
      * rewrite <-Hperm. solve_Permutation.
      * rewrite Howes. destruct scl; simpl; lia.
    + destruct ctx; simplify_eq/=; unfold inv; simpl; by split_and!.
    + destruct scl; simplify_eq/=; unfold inv; simpl; by split_and!.
  - destruct (take_out object b) as [b'|] eqn:E; simpl in Hstep; [|done].
    unfold Put, send in Hstep; simpl in Hstep.
    case_decide; simplify_eq/=. apply take_out_perm in E.
    unfold inv; simpl. split_and!; try done.
    + rewrite <-Hperm, E. solve_Permutation.
    + rewrite Howes. destruct scl; [|done].
      rewrite length_app, E. simpl. lia.
  - simplify_eq/=. unfold inv; simpl.
    rewrite bind_app, !sum_list_with_app. simpl.
    rewrite !app_nil_r, !Nat.add_0_r. by split_and!.
  - destruct (st !! i) as [pc|] eqn:Ei; simpl in Hstep; [|done].
    destruct (Stop_step zero pc _ w) as [[[pc' p'] w']|] eqn:Es;
      simpl in Hstep; [|done].
    simplify_eq/=.
    pose proof (sum_list_insert owes st i pc pc' Ei) as Ho.
    pose proof (sum_list_insert tearing_down st i pc pc' Ei) as Ht.
    pose proof (bind_insert_perm in_hand st i pc pc' Ei) as Hh.
    pose proof (lookup_sum_le tearing_down st i pc Ei) as Hle.
    destruct pc as [| |[|k]|x k| | |]; simpl in Es; unfold recv in Es;
      simpl in Es; [| | | | |done..].
    + destruct scl; simplify_eq/=; rewrite ?app_nil_r, ?Nat.add_0_r in *;
        unfold inv; simpl; split_and!; rewrite ?Hh; try done; lia.
    + destruct scl; simplify_eq/=; rewrite ?app_nil_r, ?Nat.add_0_r in *.
      { unfold inv; simpl; split_and!; rewrite ?Hh; try done; lia. }
      rewrite (Hd eq_refl) in *.
      assert (Hnone : st ≫= in_hand = []) by by apply in_hand_none.
      rewrite Hnone in *. rewrite ?app_nil_r in *.
      apply Permutation_length in Hperm as Hlen.
      rewrite length_app in Hlen.
      unfold inv; simpl; split_and!; rewrite ?Hh, ?app_nil_r; try done.
      * unfold chan_cap in Ho; simpl in Ho. lia.
      * lia.
    + simplify_eq/=; rewrite ?app_nil_r, ?Nat.add_0_r in *.
      unfold inv; simpl; split_and!; rewrite ?Hh; try done; try lia.
    + destruct ib as [|x ib]; [done|].
      simplify_eq/=; rewrite ?app_nil_r, ?Nat.add_0_r in *.
      assert (scl = true) as -> by (destruct scl; [done|lia]).
      unfold inv; simpl; split_and!; try done; try lia.
      rewrite <-Hperm, Hh. solve_Permutation.
    + simplify_eq/=; rewrite ?app_nil_r, ?Nat.add_0_r in *.
      assert (scl = true) as -> by (destruct scl; [done|lia]).
      unfold inv; simpl; split_and!; try done; try lia.
      * rewrite <-Hperm, <-Hh. solve_Permutation.
      * by apply destroy_all_snoc.
Qed.

Lemma run_inv p0 w0 acts : ∀ s s',
  inv p0 w0 s → run zero acts s = Some s' → inv p0 w0 s'.
Proof.
  induction acts as [|a acts IH]; intros s s' Hinv; simpl.
  - by intros [= <-].
  - destruct (step zero a s) as [s1|] eqn:E; simpl; [|done].
    apply IH. by eapply step_inv.
Qed.

Lemma New_run_inv config w p w' acts s :
  New zero config w = Returns ((Some p, None), w') →
  run zero acts (start p w') = Some s →
  inv p w' s ∧ length (buf (idle p)) = Z.to_nat (Count config).
Proof.
  intros [Hr Hc]%New_ready Hrun. split.
  - eapply run_inv; [|done]. by apply inv_start.
  - destruct Hr as (-> & _). done.
Qed.

Lemma sum_list_with_all_zero {A} (f : A → nat) (l : list A) :
  (∀ x, x ∈ l → f x = 0) → sum_list_with f l = 0.
Proof.
  induction l as [|a l IH]; intros Hl; simpl; [done|].
  rewrite (Hl a) by left. rewrite IH; [done|]. intros x Hx. apply Hl. by right.
Qed.

(** Only one activation of [Stop] gets past the [close]; what is owed and
    what is in hand is what that activation owes and holds. *)
Lemma sole_tearer (st : list (stop_pc T)) i pc :
  sum_list_with tearing_down st = 1 →
  st !! i = Some pc →
  tearing_down pc = 1 →
  sum_list_with owes st = owes pc ∧ st ≫= in_hand = in_hand pc.
Proof.
  intros Hsum Hi Hpc.
  pose proof (sum_list_insert tearing_down st i pc pc_return Hi) as Ht.
  pose proof (sum_list_insert owes st i pc pc_return Hi) as Ho.
  pose proof (bind_insert_perm in_hand st i pc pc_return Hi) as Hh.
  simpl in *. rewrite app_nil_r in Hh.
  assert (Hz : sum_list_with tearing_down (<[i:=pc_return]> st) = 0) by lia.
  assert (Hall : ∀ x, x ∈ <[i:=pc_return]> st → tearing_down x = 0)
    by by apply sum_list_zero.
  rewrite (in_hand_none _ Hz) in Hh. simpl in Hh.
  rewrite (sum_list_with_all_zero owes) in Ho.
  - split; [lia|]. symmetry in Hh.
    destruct pc; simpl in *; try done.
    + by apply Permutation_nil_r in Hh.
    + by apply Permutation_singleton_r in Hh.
    + by apply Permutation_nil_r in Hh.
  - intros x Hx. specialize (Hall x Hx). by destruct x.
Qed.

(** ** Stop left alone drains the idle queue, oldest object first *)

Lemma Stop_drains l : ∀ p w k rest,
  buf (idle p) = l ++ rest →
  Stop_steps zero (2 * length l) (pc_loop (length l + k)) p w =
    (pc_loop k,
     with_idle p (Chan rest (ccap (idle p)) (closed (idle p))),
     destroy_all p l w).
Proof.
  induction l as [|x l IH]; intros p w k rest Hb; simpl in *.
  - destruct p as [nf df [b c cl] st]; simpl in *. by subst.
  - unfold recv. rewrite Hb. simpl.
    replace (length l + S (length l + 0)) with (S (2 * length l)) by lia.
    simpl. rewrite Nat.add_0_r in IH. rewrite Nat.add_0_r.
    by rewrite (IH _ _ k rest).
Qed.

(** ** Errors *)

Lemma error_eqb_eq (a b : error) : error_eqb a b = true ↔ a = b.
Proof.
  revert b; induction a as [s|m a IH]; intros [t|m' b]; simpl;
    try (split; [done|discriminate]).
  - rewrite bool_decide_eq_true. split; congruence.
  - rewrite andb_true_iff, bool_decide_eq_true, IH. split.
    + by intros [-> ->].
    + by intros [= -> ->].
Qed.

Lemma string_length_app (a b : string) :
  String.length (a +:+ b) = String.length a + String.length b.
Proof. induction a as [|c a IH]; simpl; [done|]. by rewrite IH. Qed.

(** The error built by [fmt.Errorf("%w: %v", a, b)] is not [b]: its message
    is longer than the message of [b]. *)
Lemma fmt_Errorf_w_v_fresh (a b : error) : fmt_Errorf_w_v a b ≠ b.
Proof.
  intros Heq. apply (f_equal Error) in Heq. simpl in Heq.
  apply (f_equal String.length) in Heq.
  rewrite !string_length_app in Heq. simpl in Heq. lia.
Qed.

(** ** The destructor, read off the configuration *)

Lemma destroy_all_Some p f l w :
  destroyFunc p = Some f →
  destroy_all p l w = foldl (λ w object, f object w) w l.
Proof.
  intros Hf. unfold destroy_all, destroy. rewrite Hf. done.
Qed.

Lemma destroy_all_None p l w : destroyFunc p = None → destroy_all p l w = w.
Proof.
  intros Hf. unfold destroy_all, destroy. rewrite Hf. by induction l.
Qed.

Lemma New_destroyFunc config w p w' :
  New zero config w = Returns ((Some p, None), w') →
  destroyFunc p = DestroyFunc config.
Proof. by intros (f & l & _ & _ & ->)%New_success. Qed.

Lemma Stop_steps_add n m : ∀ pc p w,
  Stop_steps zero (n + m) pc p w =
    (let '(pc', p', w') := Stop_steps zero n pc p w in
     Stop_steps zero m pc' p' w').
Proof.
  induction n as [|n IH]; intros pc p w; simpl; [done|].
  destruct (Stop_step zero pc p w) as [[[pc' p'] w']|] eqn:E; [apply IH|].
  destruct m; simpl; by rewrite ?E.
Qed.

(** ** New *)

(** C10.  Whatever the configuration and the caller's state, [New]
    returns (it neither blocks nor panics), and what it returns is either
    a pool with a nil error or a nil pool with an error that is not nil. *)
Theorem New_returns_pool_xor_error (config : Config T W) (w : W) :
  ∃ r w', New zero config w = Returns (r, w') ∧
          ((∃ p, r = (Some p, None)) ∨ (∃ e, r = (None, Some e))).
Proof.
  unfold New, Check. case_decide; [by eexists _, _; split; [|right; eexists]|].
  destruct (NewFunc config) as [f|] eqn:Ef;
    [|by eexists _, _; split; [|right; eexists]].
  set (p0 := empty_pool config).
  assert (Hnf : newFunc p0 = Some f) by done.
  assert (Hcap : chan_len (idle p0) + chan_cap (idle p0) ≤ chan_cap (idle p0))
    by (unfold chan_len; simpl; lia).
  destruct (construct_cases f (chan_cap (idle p0)) w)
    as [(l & w1 & Hc)|(j & l & w1 & o & e & w2 & Hj & Hc & Hf)].
  - rewrite (New_loop_ok f _ _ _ _ _ Hnf Hcap Hc).
    eexists _, _. split; [done|]. left. by eexists.
  - rewrite (New_loop_fails f _ _ _ _ _ _ _ _ _ Hnf Hcap Hj Hc Hf).
    eexists _, _. split; [done|]. right. by eexists.
Qed.

(** C3, as the code has it.  When the constructor succeeds [k-1] times,
    making the objects [l], and fails with [e] on call [k <= Count], [New]
    returns no pool and the error [fmt.Errorf("%w: %v", ErrNew, e)]; the
    destructor of the configuration, if there is one, has been called on
    each object of [l] once, in the order they were made, and on nothing
    else; without one the caller's state is as the failing call left it.
    The error wraps [ErrNew] and nothing more: [Unwrap] gives [ErrNew],
    whose [Unwrap] is nil.  Of [e] it keeps the message; [errors.Is] finds
    [e] in it only when [e] is [ErrNew] itself. *)
Theorem New_rolls_back (config : Config T W) (w : W) (k : nat)
    (f : W → (T * option error) * W) (l : list T) (w1 w2 : W)
    (o : T) (e : error) :
  NewFunc config = Some f →
  1 ≤ k ≤ Z.to_nat (Count config) →
  construct f (k - 1) w = Some (l, w1) →
  f w1 = ((o, Some e), w2) →
  New zero config w =
    Returns ((None, Some (fmt_Errorf_w_v ErrNew e)),
             destroy_all (empty_pool config) l w2) ∧
  length l = k - 1 ∧
  Unwrap (fmt_Errorf_w_v ErrNew e) = Some ErrNew ∧
  errors_Is (fmt_Errorf_w_v ErrNew e) ErrNew = true ∧
  Error (fmt_Errorf_w_v ErrNew e) =
    "failed to make new pool object: " +:+ Error e ∧
  Unwrap ErrNew = None ∧
  (errors_Is (fmt_Errorf_w_v ErrNew e) e = true ↔ e = ErrNew) ∧
  (∀ d, DestroyFunc config = Some d →
     destroy_all (empty_pool config) l w2
       = foldl (λ w object, d object w) w2 l) ∧
  (DestroyFunc config = None →
     destroy_all (empty_pool config) l w2 = w2).
Proof.
  intros Hf Hk Hc Hfw. split_and!; try done.
  - unfold New, Check. rewrite decide_False by lia. rewrite Hf.
    set (p0 := empty_pool config).
    erewrite (New_loop_fails f _ (k - 1)); [done|by rewrite <-Hf|..|done|done].
    + unfold chan_len; simpl; lia.
    + unfold chan_cap; simpl. lia.
  - by apply construct_length in Hc.
  - split.
    + cbn [errors_Is fmt_Errorf_w_v]. fold (fmt_Errorf_w_v ErrNew e).
      unfold ErrNew at 2, errors_New. cbn [errors_Is].
      rewrite orb_false_r, orb_true_iff, !error_eqb_eq.
      intros [Heq|Heq]; [|done].
      by apply fmt_Errorf_w_v_fresh in Heq.
    + by intros ->.
  - intros d Hd. by apply destroy_all_Some.
  - intros Hd. by apply destroy_all_None.
Qed.

(** ** Objects are neither made nor lost while the pool runs *)


(** ** Stop *)

(** What the invariant says about the activation that is in the loop. *)
Lemma inv_loop p0 w0 s i k :
  inv p0 w0 s →
  stops s !! i = Some (pc_loop k) →
  closed (stopping (pool s)) = true ∧
  k = chan_len (idle (pool s)) + length (borrowed s) ∧
  Stop_steps zero (2 * chan_len (idle (pool s))) (pc_loop k)
             (pool s) (world s)
    = (pc_loop (length (borrowed s)),
       with_idle (pool s) (Chan [] (ccap (idle (pool s))) false),
       destroy_all p0 (buf (idle (pool s))) (world s)).
Proof.
  intros (Hp0 & Hdf & Hcap & Hic & Hsb & Hperm & Howes & Htear & Hd & Hw) Hi.
  pose proof (lookup_sum_le tearing_down _ _ _ Hi) as Hle. simpl in Hle.
  destruct (closed (stopping (pool s))) eqn:Hcl; [|lia].
  destruct (sole_tearer _ _ _ Htear Hi eq_refl) as [Hk _]. simpl in Hk.
  assert (Hkeq : k = chan_len (idle (pool s)) + length (borrowed s))
    by (unfold chan_len; lia).
  split_and!; try done.
  rewrite Hkeq. unfold chan_len.
  rewrite (Stop_drains (buf (idle (pool s))) _ _ _ []);
    [|by rewrite app_nil_r].
  rewrite Hic. unfold destroy_all, destroy. by rewrite Hdf.
Qed.



(** The stop signal is never lowered, and nothing is ever sent on it. *)
Lemma Stop_steps_stopping n : ∀ pc p w,
  buf (stopping p) = [] →
  closed (stopping p) = true →
  buf (stopping (Stop_steps zero n pc p w).1.2) = [] ∧
  closed (stopping (Stop_steps zero n pc p w).1.2) = true.
Proof.
  induction n as [|n IH]; intros pc p w Hb Hc; simpl; [done|].
  destruct (Stop_step zero pc p w) as [[[pc' p'] w']|] eqn:E; [|done].
  apply IH;
    destruct pc as [| |[|k]|x k| | |]; simpl in E; unfold recv in E;
    try rewrite Hb in E; try rewrite Hc in E; simplify_eq/=; try done;
    destruct (buf (idle p)); simplify_eq/=; try done;
    destruct (closed (idle p)); simplify_eq/=; done.
Qed.

Lemma Stop_when_stopping p w :
  buf (stopping p) = [] →
  closed (stopping p) = true →
  Stop zero p w = (pc_return, p, w).
Proof.
  intros Hb Hc. unfold Stop. simpl. unfold recv. by rewrite Hb, Hc.
Qed.

(** In a pool whose stop signal is raised, a call of [Stop] takes the
    first branch of its [select] and returns, leaving the pool and the
    caller's state as they were; this holds in every state, so also while
    another call is still draining.  In a pool whose signal is not raised,
    a call that runs alone raises it.  Hence after one call of [Stop] run
    alone, however far it got, a second call changes nothing. *)
Theorem Stop_is_idempotent (p : Pool T W) (w : W) :
  buf (stopping p) = [] →
  (closed (stopping p) = true →
     Stop_step zero pc_select p w = Some (pc_return, p, w) ∧
     Stop zero p w = (pc_return, p, w)) ∧
  (closed (stopping p) = false →
     Stop_steps zero 2 pc_select p w =
       (pc_loop (chan_cap (idle p)), with_stopping p (close (stopping p)), w)) ∧
  closed (stopping (Stop zero p w).1.2) = true ∧
  Stop zero (Stop zero p w).1.2 (Stop zero p w).2 =
    (pc_return, (Stop zero p w).1.2, (Stop zero p w).2).
Proof.
  intros Hb.
  assert (Htwo : closed (stopping p) = false →
                 Stop_steps zero 2 pc_select p w =
                   (pc_loop (chan_cap (idle p)),
                    with_stopping p (close (stopping p)), w)).
  { intros Hc. simpl. unfold recv. rewrite Hb, Hc. simpl. by rewrite Hc. }
  assert (Hafter : buf (stopping (Stop zero p w).1.2) = [] ∧
                   closed (stopping (Stop zero p w).1.2) = true).
  { destruct (closed (stopping p)) eqn:Hc.
    - by rewrite Stop_when_stopping.
    - unfold Stop.
      change (3 + 2 * chan_cap (idle p))
        with (2 + (1 + 2 * chan_cap (idle p))).
      generalize (1 + 2 * chan_cap (idle p)). intros m.
      rewrite Stop_steps_add, (Htwo eq_refl).
      by apply Stop_steps_stopping. }
  split_and!.
  - intros Hc. split; [|by apply Stop_when_stopping].
    simpl. unfold recv. by rewrite Hb, Hc.
  - done.
  - apply Hafter.
  - apply Stop_when_stopping; apply Hafter.
Qed.

(** ** Get and Put *)

Lemma Puts_appends l : ∀ p,
  chan_len (idle p) + length l ≤ chan_cap (idle p) →
  Puts l p =
    Some (with_idle p (Chan (buf (idle p) ++ l) (ccap (idle p))
                            (closed (idle p)))).
Proof.
  induction l as [|x l IH]; intros p Hcap; simpl in *.
  - rewrite app_nil_r. by destruct p as [? ? [? ? ?] ?].
  - unfold Put, send. rewrite decide_True by lia. simpl.
    rewrite IH.
    + simpl. by rewrite <-(assoc_L (++)).
    + unfold chan_len, chan_cap in *. simpl. rewrite length_app. simpl. lia.
Qed.

Lemma Gets_takes k : ∀ ctx p,
  k ≤ chan_len (idle p) →
  Gets zero k ctx p =
    Some (take k (buf (idle p)),
          with_idle p (Chan (drop k (buf (idle p))) (ccap (idle p))
                            (closed (idle p)))).
Proof.
  induction k as [|k IH]; intros ctx p Hk; simpl.
  - by destruct p as [? ? [? ? ?] ?].
  - unfold chan_len in Hk. unfold recv.
    destruct (buf (idle p)) as [|x b] eqn:Eb; simpl in *; [lia|].
    rewrite IH by (unfold chan_len; simpl; lia). done.
Qed.

(** C5.  [Put] appends to the idle queue and a [Get] that returns an
    object returns the head of the queue.  So after the objects [l] were
    put, in that order, into a pool with room for them, the next [k] calls
    of [Get] that return an object return the first [k] objects of the
    queue followed by [l]: what was idle longest comes out first, and the
    objects of [l] come out in the order they were put. *)
Theorem idle_objects_are_FIFO (p : Pool T W) (ctx : context_Context)
    (l : list T) (k : nat) :
  chan_len (idle p) + length l ≤ chan_cap (idle p) →
  k ≤ chan_len (idle p) + length l →
  ∃ p1 p2,
    Puts l p = Some p1 ∧
    Gets zero k ctx p1 = Some (take k (buf (idle p) ++ l), p2) ∧
    buf (idle p2) = drop k (buf (idle p) ++ l).
Proof.
  intros Hcap Hk. eexists _, _. split; [by apply Puts_appends|].
  rewrite Gets_takes; [done|].
  unfold chan_len in *. simpl. rewrite length_app. lia.
Qed.

Lemma Get_outcomes_elem ctx p r p' :
  (r, p') ∈ Get_outcomes zero ctx p ↔
  ∃ c, Get zero c ctx p = Some (r, p').
Proof.
  unfold Get_outcomes. rewrite list_elem_of_omap. split.
  - intros (c & _ & Hc). by exists c.
  - intros (c & Hc). exists c. split; [|done].
    destruct c; repeat constructor.
Qed.

(** C4, as the code has it.  With a token that is already cancelled,
    [Get] does not block: the second case of its [select] can proceed and
    gives the zero value with the token's error, the pool untouched.  The
    [select] may as well commit to another case that can proceed: hand
    out the head of the idle queue, or report the raised stop signal.  When
    the queue is empty and the signal is not raised, the cancellation error
    is the only outcome; and whenever [Get] returns an error, the idle
    queue is as it was. *)
Theorem Get_with_cancelled_context (p : Pool T W) (err : error) :
  Get zero case_Done (ctx_cancelled err) p = Some ((zero, Some err), p) ∧
  (∀ r p', (r, p') ∈ Get_outcomes zero (ctx_cancelled err) p →
     (r = (zero, Some err) ∧ p' = p) ∨
     (r = (zero, Some ErrStoppingOrStopped) ∧ p' = p) ∨
     (∃ x c, recv zero (idle p) = Some (x, c) ∧
             r = (x, None) ∧ p' = with_idle p c)) ∧
  (∀ x e p', ((x, Some e), p') ∈ Get_outcomes zero (ctx_cancelled err) p →
     x = zero ∧ p' = p) ∧
  (buf (idle p) = [] → closed (idle p) = false →
   buf (stopping p) = [] → closed (stopping p) = false →
   Get_outcomes zero (ctx_cancelled err) p = [((zero, Some err), p)]).
Proof.
  split_and!.
  - done.
  - intros r p' [c Hc]%Get_outcomes_elem.
    destruct c; simpl in Hc.
    + destruct (recv zero (idle p)) as [[x ch]|] eqn:E; simplify_eq/=.
      right; right. by eexists _, _.
    + simplify_eq/=. by left.
    + destruct (recv () (stopping p)); simplify_eq/=. right; by left.
  - intros x e p' [c Hc]%Get_outcomes_elem.
    destruct c; simpl in Hc.
    + destruct (recv zero (idle p)) as [[? ?]|]; simplify_eq/=.
    + by simplify_eq/=.
    + destruct (recv () (stopping p)); by simplify_eq/=.
  - intros Hb Hc Hsb Hsc. unfold Get_outcomes. simpl. unfold recv.
    by rewrite Hb, Hc, Hsb, Hsc.
Qed.

(** In any state the system can reach after a successful [New], an object
    that is borrowed can be put back at once: the send finds room.  The
    object goes to the tail of the idle queue and leaves the borrowed ones;
    nothing else changes. *)
Theorem Put_of_borrowed_finds_room (config : Config T W) (w : W)
    (p : Pool T W) (w' : W) (acts : list (action T)) (s : System T W)
    (x : T) :
  New zero config w = Returns ((Some p, None), w') →
  run zero acts (start p w') = Some s →
  x ∈ borrowed s →
  chan_len (idle (pool s)) < chan_cap (idle (pool s)) ∧
  ∃ s', step zero (call_Put x) s = Some s' ∧
        Put x (pool s) = Some (pool s') ∧
        buf (idle (pool s')) = buf (idle (pool s)) ++ [x] ∧
        borrowed s ≡ₚ x :: borrowed s' ∧
        stopping (pool s') = stopping (pool s) ∧
        stops s' = stops s ∧ world s' = world s ∧
        destroyed s' = destroyed s.
Proof.
  intros HNew Hrun Hx.
  destruct (New_run_inv _ _ _ _ _ _ HNew Hrun) as [Hinv Hn].
  destruct (take_out_elem _ _ Hx) as [b Hb].
  pose proof (take_out_perm _ _ _ Hb) as Hperm'.
  assert (Hroom : chan_len (idle (pool s)) < chan_cap (idle (pool s))).
  { destruct Hinv as (Hp0 & _ & Hcap & _ & _ & Hperm & _).
    apply Permutation_length in Hperm.
    rewrite !length_app, Hperm' in Hperm. simpl in Hperm.
    unfold chan_len, chan_cap. lia. }
  split; [done|].
  eexists. split.
  { simpl. rewrite Hb. simpl. unfold Put, send. by rewrite decide_True. }
  simpl. unfold Put, send. rewrite decide_True by done. by split_and!.
Qed.

(** C6, where the code breaks it.  In any state the system can reach after
    a successful [New] in which the stop signal is not raised, let two calls
    of [Stop] both evaluate the [select] of line 74 before either executes
    the [close] of line 78.  Both take the [default] branch.  The first one
    to close raises the signal and enters its loop; the other one then
    closes a closed channel and panics: it neither observes the raised
    signal nor returns. *)
Theorem racing_Stop_panics (config : Config T W) (w : W) (p : Pool T W)
    (w' : W) (acts : list (action T)) (s : System T W) :
  New zero config w = Returns ((Some p, None), w') →
  run zero acts (start p w') = Some s →
  closed (stopping (pool s)) = false →
  ∃ s1 s2,
    run zero [call_Stop; call_Stop;
              step_Stop (length (stops s)); step_Stop (S (length (stops s)))]
        s = Some s1 ∧
    stops s1 = stops s ++ [pc_close; pc_close] ∧
    closed (stopping (pool s1)) = false ∧
    run zero [step_Stop (length (stops s)); step_Stop (S (length (stops s)))]
        s1 = Some s2 ∧
    stops s2 = stops s ++ [pc_loop (chan_cap (idle (pool s))); pc_panic] ∧
    closed (stopping (pool s2)) = true ∧
    Stop_step zero pc_panic (pool s2) (world s2) = None.
Proof.
  intros HNew Hrun Hcl.
  destruct (New_run_inv _ _ _ _ _ _ HNew Hrun) as [Hinv _].
  destruct Hinv as (_ & _ & _ & _ & Hsb & _).
  destruct s as [pl wd b st d]. simpl in *.
  eexists _, _. split.
  { rewrite <-(assoc_L (++)). simpl.
    rewrite lookup_two_l. simpl. unfold recv. rewrite Hsb, Hcl. simpl.
    rewrite insert_two_l, lookup_two_r. simpl. unfold recv.
    rewrite Hsb, Hcl. simpl. rewrite insert_two_r. done. }
  simpl. split; [done|]. split; [done|].
  rewrite lookup_two_l. simpl. rewrite Hcl. simpl.
  rewrite insert_two_l, lookup_two_r. simpl.
  rewrite insert_two_r. by split_and!.
Qed.


(** * Further properties of [Check], [New], [Get], [Put] and [Stop] *)

(** ** Check and New *)

(** The error of [New] tells a bad configuration from a failed
    construction: it is [ErrNew] (in the sense of [errors.Is]) exactly when
    the configuration passed [Check].  When [Check] rejects the
    configuration, [New] returns the error of [Check] and has called neither
    the constructor nor the destructor. *)
Theorem New_error_kinds (config : Config T W) (w w' : W) (e : error) :
  New zero config w = Returns ((None, Some e), w') →
  (errors_Is e ErrNew = true ↔ Check config = None) ∧
  (Check config ≠ None → Check config = Some e ∧ w' = w) ∧
  (Check config = None → ∃ cause, e = fmt_Errorf_w_v ErrNew cause).
Proof.
  unfold New. destruct (Check config) as [e0|] eqn:Ec.
  - intros [= <- <-]. split_and!; [|done|done].
    unfold Check in Ec. case_decide; simplify_eq; [done|].
    destruct (NewFunc config); by simplify_eq.
  - intros HNew. unfold Check in Ec. case_decide; [done|].
    destruct (NewFunc config) as [f|] eqn:Ef; [|done].
    set (p0 := empty_pool config) in *.
    assert (Hnf : newFunc p0 = Some f) by done.
    assert (Hcap : chan_len (idle p0) + chan_cap (idle p0) ≤ chan_cap (idle p0))
      by (unfold chan_len; simpl; lia).
    destruct (construct_cases f (chan_cap (idle p0)) w)
      as [(l & w1 & Hc)|(j & l & w1 & o & e1 & w2 & Hj & Hc & Hf)].
    + by rewrite (New_loop_ok f _ _ _ _ _ Hnf Hcap Hc) in HNew.
    + rewrite (New_loop_fails f _ _ _ _ _ _ _ _ _ Hnf Hcap Hj Hc Hf) in HNew.
      simplify_eq. split_and!; [done|done|]. intros _. by eexists.
Qed.

(** [Check] reports a negative count before it looks at the constructor, and
    accepts exactly the configurations with a count that is not negative and
    a constructor. *)
Theorem Check_accepts_iff (config : Config T W) :
  (Check config = None ↔ (0 ≤ Count config)%Z ∧ NewFunc config ≠ None) ∧
  ((Count config < 0)%Z →
   Check config =
     Some (errors_New "count must be greater than or equal to zero")) ∧
  ((0 ≤ Count config)%Z → NewFunc config = None →
   Check config = Some (errors_New "newFunc is required")).
Proof.
  unfold Check. split_and!.
  - case_decide; [split; [done|lia]|].
    destruct (NewFunc config); split; try done; [split; [lia|done]|].
    by intros [_ ?].
  - intros. by rewrite decide_True.
  - intros ? ->. by rewrite decide_False by lia.
Qed.

(** [New] succeeds exactly when the configuration passes [Check] and the
    constructor succeeds [Count] times in a row; the pool then holds the
    objects made, in the order they were made, in a queue of capacity
    [Count], the stop signal is not raised, and the caller's state is the
    one the constructor left: the destructor was not called. *)
Theorem New_succeeds_iff (config : Config T W) (w w' : W) (p : Pool T W) :
  New zero config w = Returns ((Some p, None), w') ↔
  (0 ≤ Count config)%Z ∧
  ∃ f l, NewFunc config = Some f ∧
         construct f (Z.to_nat (Count config)) w = Some (l, w') ∧
         p = mkPool (Some f) (DestroyFunc config)
                    (Chan l (Z.to_nat (Count config)) false) (Chan [] 0 false).
Proof.
  split.
  - intros HNew. split.
    + unfold New, Check in HNew. case_decide; [done|lia].
    + by apply New_success.
  - intros (Hn & f & l & Hf & Hc & ->).
    unfold New, Check. rewrite decide_False by lia. rewrite Hf.
    set (p0 := empty_pool config).
    erewrite (New_loop_ok f); [|by rewrite <-Hf| |exact Hc].
    + unfold with_idle, p0, empty_pool; simpl. by rewrite Hf.
    + unfold chan_len; simpl; lia.
Qed.

(** With [Count = 0] and a constructor, [New] succeeds without calling the
    constructor; on the pool it returns a [Get] whose token is not cancelled
    blocks, a [Get] whose token is cancelled reports the token's error, and
    [Stop] returns at once without calling the destructor. *)
Theorem zero_capacity (config : Config T W) (w : W) :
  Count config = 0%Z →
  NewFunc config ≠ None →
  ∃ p, New zero config w = Returns ((Some p, None), w) ∧
       buf (idle p) = [] ∧ chan_cap (idle p) = 0 ∧
       Get_outcomes zero ctx_active p = [] ∧
       (∀ e, Get_outcomes zero (ctx_cancelled e) p = [((zero, Some e), p)]) ∧
       Stop zero p w =
         (pc_end, with_stopping p (close (stopping p)), w).
Proof.
  intros Hn Hf. destruct (NewFunc config) as [f|] eqn:Ef; [|done].
  eexists. split.
  - apply New_succeeds_iff. split; [lia|]. exists f, []. rewrite Hn. by simpl.
  - by split_and!.
Qed.

(** After a successful [New], [Count] calls of [Get] that return an object
    return the objects in the order the constructor made them; then the
    queue is empty and a [Get] whose token is not cancelled blocks. *)
Theorem New_then_Gets (config : Config T W) (w w' : W) (p : Pool T W)
    (ctx : context_Context) :
  New zero config w = Returns ((Some p, None), w') →
  ∃ f p2,
    NewFunc config = Some f ∧
    construct f (Z.to_nat (Count config)) w = Some (buf (idle p), w') ∧
    Gets zero (Z.to_nat (Count config)) ctx p = Some (buf (idle p), p2) ∧
    buf (idle p2) = [] ∧
    Get_outcomes zero ctx_active p2 = [].
Proof.
  intros (f & l & Hf & Hc & ->)%New_success.
  pose proof (construct_length _ _ _ _ _ Hc) as Hlen.
  eexists f, _. split; [done|]. split; [done|].
  rewrite Gets_takes by (unfold chan_len; simpl; lia). simpl.
  rewrite <-Hlen, firstn_all, drop_all. by split_and!.
Qed.

(** ** Get and Put on one pool state *)

(** In a pool whose channels are as the program leaves them (the idle
    channel is never closed, nothing is ever sent on the stop channel, no
    [Put] is waiting to send), a call of [Get] blocks exactly when no object
    is idle, the token is not cancelled and the stop signal is not raised. *)
Theorem Get_blocks_iff (p : Pool T W) (ctx : context_Context) :
  closed (idle p) = false →
  buf (stopping p) = [] →
  (Get_outcomes zero ctx p = [] ↔
   buf (idle p) = [] ∧ ctx = ctx_active ∧ closed (stopping p) = false).
Proof.
  intros Hic Hsb. unfold Get_outcomes. simpl. unfold recv.
  rewrite Hic, Hsb.
  destruct (buf (idle p)), ctx, (closed (stopping p)); simpl;
    split; try done; by intros (? & ? & ?).
Qed.

(** Whatever case the [select] of [Get] commits to, the call returns either
    an object with a nil error, received from the idle channel, or the zero
    value with an error that is not nil; in the second case the pool is left
    as it was.  With an active token the error is [ErrStoppingOrStopped]. *)
Theorem Get_object_xor_error (p p' : Pool T W) (ctx : context_Context)
    (c : select_case) (x : T) (err : option error) :
  Get zero c ctx p = Some ((x, err), p') →
  (err = None ∧ c = case_idle ∧
   ∃ ch, recv zero (idle p) = Some (x, ch) ∧ p' = with_idle p ch) ∨
  (∃ e, err = Some e ∧ x = zero ∧ p' = p ∧
        (ctx = ctx_active → e = ErrStoppingOrStopped) ∧
        (c = case_Done → ctx = ctx_cancelled e) ∧
        (c = case_stopping → e = ErrStoppingOrStopped)).
Proof.
  destruct c; simpl.
  - destruct (recv zero (idle p)) as [[y ch]|] eqn:E; simpl; [|done].
    intros [= <- <- <-]. left. split_and!; try done. by eexists.
  - destruct ctx as [|e]; simpl; [done|]. intros [= <- <- <-].
    right. exists e. by split_and!.
  - destruct (recv () (stopping p)); simpl; [|done]. intros [= <- <- <-].
    right. eexists. by split_and!.
Qed.

(** [Get] followed by [Put] of the object it returned moves that object from
    the head of the idle queue to its tail: the queue keeps its length and
    its objects, and the [Put] does not block. *)
Theorem Get_then_Put_rotates (p : Pool T W) (ctx : context_Context)
    (x : T) (rest : list T) :
  buf (idle p) = x :: rest →
  chan_len (idle p) ≤ chan_cap (idle p) →
  ∃ p1 p2,
    Get zero case_idle ctx p = Some ((x, None), p1) ∧
    Put x p1 = Some p2 ∧
    buf (idle p2) = rest ++ [x] ∧
    chan_len (idle p2) = chan_len (idle p) ∧
    buf (idle p2) ≡ₚ buf (idle p) ∧
    p2 = with_idle p (Chan (rest ++ [x]) (ccap (idle p)) (closed (idle p))).
Proof.
  intros Hb Hcap. unfold chan_len, chan_cap in *. rewrite Hb in Hcap.
  simpl in Hcap.
  eexists _, _. split.
  { simpl. unfold recv. rewrite Hb. simpl. done. }
  unfold Put, send, chan_len, chan_cap. simpl.
  rewrite decide_True by lia. simpl.
  split_and!; try done.
  - unfold chan_len. simpl. rewrite length_app, Hb. simpl. lia.
  - rewrite Hb. simpl. apply Permutation_app_comm.
Qed.

(** ** What no step changes *)

(** Along any sequence of steps, from any state: the capacity of the idle
    channel, the constructor and the destructor stay what they were, the idle
    channel is not closed by any step, nothing is sent on the stop channel,
    a queue within its capacity stays within it, and a raised stop signal
    stays raised. *)
Theorem run_keeps (acts : list (action T)) : ∀ (s s' : System T W),
  run zero acts s = Some s' →
  chan_cap (idle (pool s')) = chan_cap (idle (pool s)) ∧
  newFunc (pool s') = newFunc (pool s) ∧
  destroyFunc (pool s') = destroyFunc (pool s) ∧
  closed (idle (pool s')) = closed (idle (pool s)) ∧
  buf (stopping (pool s')) = buf (stopping (pool s)) ∧
  (chan_len (idle (pool s)) ≤ chan_cap (idle (pool s)) →
   chan_len (idle (pool s')) ≤ chan_cap (idle (pool s'))) ∧
  (closed (stopping (pool s)) = true →
   closed (stopping (pool s')) = true).
Proof.
  induction acts as [|a acts IH]; intros s s'; simpl.
  { intros [= <-]. by split_and!. }
  destruct (step zero a s) as [s1|] eqn:E; simpl; [|done].
  intros Hrun. specialize (IH _ _ Hrun).
  assert (Hone :
    chan_cap (idle (pool s1)) = chan_cap (idle (pool s)) ∧
    newFunc (pool s1) = newFunc (pool s) ∧
    destroyFunc (pool s1) = destroyFunc (pool s) ∧
    closed (idle (pool s1)) = closed (idle (pool s)) ∧
    buf (stopping (pool s1)) = buf (stopping (pool s)) ∧
    (chan_len (idle (pool s)) ≤ chan_cap (idle (pool s)) →
     chan_len (idle (pool s1)) ≤ chan_cap (idle (pool s1))) ∧
    (closed (stopping (pool s)) = true →
     closed (stopping (pool s1)) = true)).
  { clear IH Hrun.
    destruct s as [[nf df [ib ic icl] [sb sc scl]] w b st d].
    unfold chan_len, chan_cap. simpl in *.
    destruct a as [ctx c|object| |i]; simpl in E.
    - destruct c; simpl in E; unfold recv in E; simpl in E.
      + destruct ib as [|x ib]; [destruct icl|]; simplify_eq/=;
          split_and!; try done. lia.
      + destruct ctx; simplify_eq/=. by split_and!.
      + destruct sb, scl; simplify_eq/=; by split_and!.
    - destruct (take_out object b); simpl in E; [|done].
      unfold Put, send, chan_len, chan_cap in E; simpl in E.
      case_decide; simplify_eq/=. split_and!; try done.
      rewrite length_app. simpl. lia.
    - simplify_eq/=. by split_and!.
    - destruct (st !! i) as [pc|]; simpl in E; [|done].
      destruct pc as [| |[|k]|x k| | |]; simpl in E; unfold recv in E;
        simpl in E; try done.
      + destruct sb, scl; simplify_eq/=; by split_and!.
      + destruct scl; simplify_eq/=; by split_and!.
      + simplify_eq/=; by split_and!.
      + destruct ib as [|y ib]; [destruct icl|]; simplify_eq/=;
          split_and!; try done. lia.
      + simplify_eq/=; by split_and!. }
  destruct Hone as (H1 & H2 & H3 & H4 & H5 & H6 & H7).
  destruct IH as (I1 & I2 & I3 & I4 & I5 & I6 & I7).
  split_and!; try congruence; auto.
Qed.

(** ** Bounds in the states the system can reach *)

(** After a successful [New] with [Count = n], at most [n] objects are
    borrowed at any time.  While [n] are borrowed and the stop signal is not
    raised, a [Get] whose token is not cancelled blocks, and a [Get] whose
    token is cancelled can only report the token's error. *)
Theorem at_most_Count_borrowed (config : Config T W) (w : W) (p : Pool T W)
    (w' : W) (acts : list (action T)) (s : System T W) :
  New zero config w = Returns ((Some p, None), w') →
  run zero acts (start p w') = Some s →
  length (borrowed s) ≤ Z.to_nat (Count config) ∧
  (length (borrowed s) = Z.to_nat (Count config) →
   closed (stopping (pool s)) = false →
   Get_outcomes zero ctx_active (pool s) = [] ∧
   ∀ e, Get_outcomes zero (ctx_cancelled e) (pool s)
          = [((zero, Some e), pool s)]).
Proof.
  intros HNew Hrun.
  destruct (New_run_inv _ _ _ _ _ _ HNew Hrun)
    as [(Hp0 & Hdf & Hcap & Hic & Hsb & Hperm & Howes & Htear & Hd & Hw) Hn].
  apply Permutation_length in Hperm. rewrite !length_app in Hperm.
  split; [lia|]. intros Hall Hcl.
  assert (Hb : buf (idle (pool s)) = [])
    by (destruct (buf (idle (pool s))); [done|simpl in *; lia]).
  unfold Get_outcomes. simpl. unfold recv. by rewrite Hb, Hic, Hsb, Hcl.
Qed.

(** After a successful [New] with a positive [Count], while nothing is
    borrowed and the stop signal is not raised the idle queue is full: the
    send of a [Put] of any object at that moment (an object that did not come
    from the pool, or one put back twice) finds no room in the buffer. *)
Theorem surplus_Put_blocks (config : Config T W) (w : W) (p : Pool T W)
    (w' : W) (acts : list (action T)) (s : System T W) (x : T) :
  (0 < Count config)%Z →
  New zero config w = Returns ((Some p, None), w') →
  run zero acts (start p w') = Some s →
  borrowed s = [] →
  closed (stopping (pool s)) = false →
  0 < chan_cap (idle (pool s)) ∧
  chan_len (idle (pool s)) = chan_cap (idle (pool s)) ∧
  Put x (pool s) = None.
Proof.
  intros Hpos HNew Hrun Hb Hcl.
  destruct (New_run_inv _ _ _ _ _ _ HNew Hrun)
    as [(Hp0 & Hdf & Hcap & Hic & Hsb & Hperm & Howes & Htear & Hd & Hw) Hn].
  rewrite Hcl in Htear. rewrite (in_hand_none _ Htear), (Hd Hcl), Hb in Hperm.
  rewrite !app_nil_r in Hperm. apply Permutation_length in Hperm.
  assert (Hfull : chan_len (idle (pool s)) = chan_cap (idle (pool s)))
    by (unfold chan_len, chan_cap; lia).
  split; [unfold chan_cap; lia|].
  split; [done|]. unfold Put, send. by rewrite decide_False by lia.
Qed.

(** Without a destructor, nothing the pool does after [New] touches the
    caller's state. *)
Theorem no_destructor_no_effect (config : Config T W) (w : W)
    (p : Pool T W) (w' : W) (acts : list (action T)) (s : System T W) :
  DestroyFunc config = None →
  New zero config w = Returns ((Some p, None), w') →
  run zero acts (start p w') = Some s →
  world s = w'.
Proof.
  intros Hdf HNew Hrun.
  destruct (New_run_inv _ _ _ _ _ _ HNew Hrun) as [Hinv _].
  destruct Hinv as (_ & _ & _ & _ & _ & _ & _ & _ & _ & ->).
  apply New_success in HNew as (f & l & _ & _ & ->).
  unfold destroy_all, destroy. simpl. rewrite Hdf.
  by induction (destroyed s).
Qed.

(** ** Stop run to its end *)

(** A call of [Stop] with nothing else running, in a pool whose stop signal
    is not raised: it raises the signal, destroys the idle objects in queue
    order, and then has as many iterations left as objects are missing from
    the queue.  If the queue was full it has reached its end; otherwise it is
    blocked on the empty queue. *)
Theorem Stop_alone (p : Pool T W) (w : W) :
  buf (stopping p) = [] →
  closed (stopping p) = false →
  closed (idle p) = false →
  chan_len (idle p) ≤ chan_cap (idle p) →
  let p' := with_stopping (with_idle p (Chan [] (ccap (idle p)) false))
                          (close (stopping p)) in
  let w' := destroy_all p (buf (idle p)) w in
  (chan_len (idle p) = chan_cap (idle p) →
   Stop zero p w = (pc_end, p', w')) ∧
  (chan_len (idle p) < chan_cap (idle p) →
   Stop zero p w = (pc_loop (chan_cap (idle p) - chan_len (idle p)), p', w') ∧
   Stop_step zero (pc_loop (chan_cap (idle p) - chan_len (idle p))) p' w'
     = None).
Proof.
  intros Hsb Hsc Hic Hle p' w'.
  assert (Hdrained :
    Stop_steps zero (2 + 2 * chan_len (idle p)) pc_select p w =
      (pc_loop (chan_cap (idle p) - chan_len (idle p)), p', w')).
  { rewrite Stop_steps_add.
    replace (Stop_steps zero 2 pc_select p w)
      with (@pc_loop T (chan_cap (idle p)),
            with_stopping p (close (stopping p)), w)
      by (simpl; unfold recv; rewrite Hsb, Hsc; simpl; by rewrite Hsc).
    replace (chan_cap (idle p))
      with (chan_len (idle p) + (chan_cap (idle p) - chan_len (idle p)))
      at 1 by lia.
    unfold chan_len.
    rewrite (Stop_drains (buf (idle p)) _ _ _ []) by (by rewrite app_nil_r).
    simpl. unfold p', w', with_idle, with_stopping. simpl. by rewrite Hic. }
  assert (Hstuck : ∀ m k, 0 < k →
    Stop_steps zero m (pc_loop k) p' w' = (pc_loop k, p', w')).
  { intros m k Hk. destruct k as [|k]; [lia|]. by destruct m. }
  unfold Stop. split.
  - intros Hfull.
    replace (3 + 2 * chan_cap (idle p))
      with ((2 + 2 * chan_len (idle p)) + 1) by lia.
    rewrite Stop_steps_add, Hdrained, Hfull, Nat.sub_diag. done.
  - intros Hlt. split.
    + replace (3 + 2 * chan_cap (idle p))
        with ((2 + 2 * chan_len (idle p))
              + (1 + 2 * (chan_cap (idle p) - chan_len (idle p)))) by lia.
      rewrite Stop_steps_add, Hdrained. apply Hstuck. lia.
    + destruct (chan_cap (idle p) - chan_len (idle p)) eqn:E; [lia|]. done.
Qed.

Lemma run_app acts1 acts2 : ∀ s,
  run zero (acts1 ++ acts2) s = run zero acts1 s ≫= run zero acts2.
Proof.
  induction acts1 as [|a acts1 IH]; intros s; simpl; [done|].
  destruct (step zero a s); simpl; [apply IH|done].
Qed.

Lemma run_app_Some acts1 acts2 s s1 :
  run zero acts1 s = Some s1 →
  run zero (acts1 ++ acts2) s = run zero acts2 s1.
Proof. intros H. by rewrite run_app, H. Qed.

(** One iteration of the loop of [Stop] on a queue that is not empty. *)
Lemma receive_and_destroy p0 w0 s i k x rest :
  inv p0 w0 s →
  stops s !! i = Some (pc_loop k) →
  buf (idle (pool s)) = x :: rest →
  ∃ s', run zero [step_Stop i; step_Stop i] s = Some s' ∧
        stops s' !! i = Some (pc_loop (k - 1)) ∧
        buf (idle (pool s')) = rest ∧
        borrowed s' = borrowed s ∧
        destroyed s' = destroyed s ++ [x].
Proof.
  intros Hinv Hi Hb.
  destruct (inv_loop _ _ _ _ _ Hinv Hi) as (_ & Hk & _).
  unfold chan_len in Hk. rewrite Hb in Hk. simpl in Hk.
  destruct k as [|k]; [lia|].
  pose proof (lookup_lt_Some _ _ _ Hi) as Hlt.
  destruct s as [pl wd b st d]. simpl in *.
  rewrite Hi. simpl. unfold recv. rewrite Hb. simpl.
  rewrite list_lookup_insert_eq by done. simpl.
  eexists. split; [done|]. simpl.
  rewrite list_lookup_insert_eq by (by rewrite length_insert).
  rewrite Nat.sub_0_r, app_nil_r. by split_and!.
Qed.

Lemma drain_run p0 w0 i l : ∀ s k rest,
  inv p0 w0 s →
  stops s !! i = Some (pc_loop k) →
  buf (idle (pool s)) = l ++ rest →
  ∃ s', run zero (drain i (length l)) s = Some s' ∧
        stops s' !! i = Some (pc_loop (k - length l)) ∧
        buf (idle (pool s')) = rest ∧
        borrowed s' = borrowed s ∧
        destroyed s' = destroyed s ++ l.
Proof.
  induction l as [|x l IH]; intros s k rest Hinv Hi Hb.
  - exists s. simpl. rewrite Nat.sub_0_r, app_nil_r. by split_and!.
  - destruct (receive_and_destroy _ _ _ _ _ _ _ Hinv Hi Hb)
      as (s1 & Hrun1 & Hi1 & Hb1 & Hbo1 & Hd1).
    pose proof (run_inv _ _ _ _ _ Hinv Hrun1) as Hinv1.
    destruct (IH _ _ _ Hinv1 Hi1 Hb1) as (s2 & Hrun2 & Hi2 & Hb2 & Hbo2 & Hd2).
    exists s2. split.
    { change (drain i (length (x :: l)))
        with ([step_Stop i; step_Stop i] ++ @drain T i (length l)).
      by rewrite run_app, Hrun1. }
    split_and!; try done; try congruence.
    + rewrite Hi2. do 2 f_equal. simpl. lia.
    + rewrite Hd2, Hd1. by rewrite <-(assoc_L (++)).
Qed.

Lemma put_back_run p0 w0 i l : ∀ s k,
  inv p0 w0 s →
  stops s !! i = Some (pc_loop k) →
  buf (idle (pool s)) = [] →
  borrowed s ≡ₚ l →
  ∃ s', run zero (put_back i l) s = Some s' ∧
        stops s' !! i = Some (pc_loop (k - length l)) ∧
        buf (idle (pool s')) = [] ∧
        borrowed s' = [] ∧
        destroyed s' = destroyed s ++ l.
Proof.
  induction l as [|x l IH]; intros s k Hinv Hi Hb Hbo.
  - exists s. simpl. rewrite Nat.sub_0_r, app_nil_r.
    apply Permutation_nil_r in Hbo. by split_and!.
  - assert (Hx : x ∈ borrowed s) by (rewrite Hbo; left).
    destruct (take_out_elem _ _ Hx) as [b' Hb'].
    pose proof (take_out_perm _ _ _ Hb') as Hperm.
    assert (Hl : b' ≡ₚ l).
    { apply (Permutation_cons_inv (a:=x)). by rewrite <-Hperm. }
    assert (Hroom : chan_len (idle (pool s)) < chan_cap (idle (pool s))).
    { destruct Hinv as (Hp0 & _ & Hcap & _ & _ & Hall & _).
      apply Permutation_length in Hall.
      rewrite !length_app, Hperm in Hall. simpl in Hall.
      unfold chan_len, chan_cap. lia. }
    set (s1 := mkSystem
                 (with_idle (pool s)
                    (Chan (buf (idle (pool s)) ++ [x]) (ccap (idle (pool s)))
                          (closed (idle (pool s)))))
                 (world s) b' (stops s) (destroyed s)).
    assert (Hstep : step zero (call_Put x) s = Some s1).
    { simpl. rewrite Hb'. simpl. unfold Put, send.
      by rewrite decide_True. }
    pose proof (step_inv _ _ _ _ _ Hinv Hstep) as Hinv1.
    assert (Hb1 : buf (idle (pool s1)) = x :: []) by (simpl; by rewrite Hb).
    destruct (receive_and_destroy _ _ s1 i k x [] Hinv1 Hi Hb1)
      as (s2 & Hrun2 & Hi2 & Hb2 & Hbo2 & Hd2).
    pose proof (run_inv _ _ _ _ _ Hinv1 Hrun2) as Hinv2.
    assert (Hbo2' : borrowed s2 ≡ₚ l) by (rewrite Hbo2; done).
    destruct (IH _ _ Hinv2 Hi2 Hb2 Hbo2')
      as (s3 & Hrun3 & Hi3 & Hb3 & Hbo3 & Hd3).
    exists s3. split.
    { change (put_back i (x :: l))
        with ([call_Put x] ++ [step_Stop i; step_Stop i] ++ put_back i l).
      rewrite (run_app_Some [call_Put x] _ s s1)
        by (cbn [run]; by rewrite Hstep).
      by rewrite (run_app_Some _ _ s1 s2 Hrun2). }
    split_and!; try done.
    + rewrite Hi3. do 2 f_equal. simpl. lia.
    + rewrite Hd3, Hd2. simpl. by rewrite <-(assoc_L (++)).
Qed.

(** What is left of a call of [Stop] that is in its loop. *)
Lemma finish_Stop_run p0 w0 s i k l :
  inv p0 w0 s →
  stops s !! i = Some (pc_loop k) →
  borrowed s ≡ₚ l →
  ∃ s', run zero (finish_Stop i (chan_len (idle (pool s))) l) s = Some s' ∧
        stops s' !! i = Some pc_end ∧
        buf (idle (pool s')) = [] ∧
        borrowed s' = [] ∧
        destroyed s' = destroyed s ++ buf (idle (pool s)) ++ l.
Proof.
  intros Hinv Hi Hbo.
  destruct (inv_loop _ _ _ _ _ Hinv Hi) as (_ & Hk & _).
  destruct (drain_run _ _ i (buf (idle (pool s))) s k [] Hinv Hi)
    as (s1 & Hrun1 & Hi1 & Hb1 & Hbo1 & Hd1); [by rewrite app_nil_r|].
  pose proof (run_inv _ _ _ _ _ Hinv Hrun1) as Hinv1.
  assert (Hbo1' : borrowed s1 ≡ₚ l) by (by rewrite Hbo1).
  destruct (put_back_run _ _ i l s1 _ Hinv1 Hi1 Hb1 Hbo1')
    as (s2 & Hrun2 & Hi2 & Hb2 & Hbo2 & Hd2).
  assert (Hzero : k - length (buf (idle (pool s))) - length l = 0).
  { apply Permutation_length in Hbo. unfold chan_len in Hk. lia. }
  rewrite Hzero in Hi2.
  pose proof (lookup_lt_Some _ _ _ Hi2) as Hlt.
  eexists. split.
  { unfold finish_Stop, chan_len.
    rewrite (run_app_Some _ _ s s1 Hrun1), (run_app_Some _ _ s1 s2 Hrun2).
    simpl. rewrite Hi2. simpl. done. }
  simpl. rewrite list_lookup_insert_eq by done.
  rewrite app_nil_r, Hd2, Hd1, <-(assoc_L (++)). by split_and!.
Qed.

(** From any state the system can reach after a successful [New], an
    activation of [Stop] that is in its loop reaches the end of [Stop] when
    the callers put back what they borrowed: it destroys the idle objects in
    queue order, then each borrowed object as it is put back, in the order of
    the [Put] calls, and after the last one it leaves the loop with nothing
    idle and nothing borrowed.  The caller's state at the end is the one
    obtained from the state at the start by calling the destructor of the
    configuration on these objects in that order; it is the same state when
    the configuration has no destructor. *)
Theorem Stop_completes (config : Config T W) (w : W) (p : Pool T W)
    (w' : W) (acts : list (action T)) (s : System T W) (i k : nat)
    (l : list T) :
  New zero config w = Returns ((Some p, None), w') →
  run zero acts (start p w') = Some s →
  stops s !! i = Some (pc_loop k) →
  borrowed s ≡ₚ l →
  ∃ s', run zero (finish_Stop i (chan_len (idle (pool s))) l) s = Some s' ∧
        stops s' !! i = Some pc_end ∧
        buf (idle (pool s')) = [] ∧
        borrowed s' = [] ∧
        destroyed s' = destroyed s ++ buf (idle (pool s)) ++ l ∧
        world s' = destroy_all p (buf (idle (pool s)) ++ l) (world s) ∧
        (∀ d, DestroyFunc config = Some d →
           world s' = foldl (λ w object, d object w) (world s)
                            (buf (idle (pool s)) ++ l)) ∧
        (DestroyFunc config = None → world s' = world s).
Proof.
  intros HNew Hrun Hi Hbo.
  destruct (New_run_inv _ _ _ _ _ _ HNew Hrun) as [Hinv _].
  pose proof (New_destroyFunc _ _ _ _ HNew) as Hdf.
  destruct (finish_Stop_run _ _ _ _ _ _ Hinv Hi Hbo)
    as (s' & Hrun' & Hi' & Hb' & Hbo' & Hd').
  pose proof (run_inv _ _ _ _ _ Hinv Hrun') as Hinv'.
  assert (Hw : world s' = destroy_all p (buf (idle (pool s)) ++ l) (world s)).
  { destruct Hinv as (_ & _ & _ & _ & _ & _ & _ & _ & _ & ->).
    destruct Hinv' as (_ & _ & _ & _ & _ & _ & _ & _ & _ & ->).
    by rewrite Hd', destroy_all_app. }
  exists s'. split_and!; try done.
  - intros d Hd. rewrite Hw. apply destroy_all_Some. by rewrite Hdf.
  - intros Hd. rewrite Hw. apply destroy_all_None. by rewrite Hdf.
Qed.

(** From any state the system can reach after a successful [New] in which
    the stop signal is not raised, a call of [Stop] runs to its end when the
    callers put back what they borrowed; the objects destroyed are exactly
    the idle ones, in queue order, followed by the borrowed ones in the order
    they are put back, and the destructor has run on them in that order. *)
Theorem Stop_call_completes (config : Config T W) (w : W) (p : Pool T W)
    (w' : W) (acts : list (action T)) (s : System T W) (l : list T) :
  New zero config w = Returns ((Some p, None), w') →
  run zero acts (start p w') = Some s →
  closed (stopping (pool s)) = false →
  borrowed s ≡ₚ l →
  let i := length (stops s) in
  ∃ s', run zero (begin_Stop i
                  ++ finish_Stop i (chan_len (idle (pool s))) l) s = Some s' ∧
        stops s' !! i = Some pc_end ∧
        closed (stopping (pool s')) = true ∧
        buf (idle (pool s')) = [] ∧
        borrowed s' = [] ∧
        destroyed s' = buf (idle (pool s)) ++ l ∧
        world s' = destroy_all p (buf (idle (pool s)) ++ l) w' ∧
        (∀ d, DestroyFunc config = Some d →
           world s' = foldl (λ w object, d object w) w'
                            (buf (idle (pool s)) ++ l)) ∧
        (DestroyFunc config = None → world s' = w').
Proof.
  intros HNew Hrun Hcl Hbo i.
  destruct (New_run_inv _ _ _ _ _ _ HNew Hrun) as [Hinv _].
  pose proof (New_destroyFunc _ _ _ _ HNew) as Hdf.
  pose proof Hinv as (_ & _ & _ & _ & Hsb & _ & _ & _ & Hd & Hw).
  set (s1 := mkSystem (with_stopping (pool s) (close (stopping (pool s))))
               (world s) (borrowed s)
               (<[i:=pc_loop (chan_cap (idle (pool s)))]>
                  (<[i:=pc_close]> (stops s ++ [pc_select])))
               ((destroyed s ++ []) ++ [])).
  assert (Hrun1 : run zero (begin_Stop i) s = Some s1).
  { unfold begin_Stop. simpl.
    rewrite lookup_app_r by done. rewrite Nat.sub_diag. simpl.
    unfold recv. rewrite Hsb, Hcl. simpl.
    rewrite list_lookup_insert_eq by (rewrite length_app; simpl; lia).
    simpl. by rewrite Hcl. }
  pose proof (run_inv _ _ _ _ _ Hinv Hrun1) as Hinv1.
  assert (Hi1 : stops s1 !! i = Some (pc_loop (chan_cap (idle (pool s))))).
  { simpl. apply list_lookup_insert_eq.
    rewrite length_insert, length_app. simpl. lia. }
  destruct (finish_Stop_run _ _ s1 i _ l Hinv1 Hi1 Hbo)
    as (s' & Hrun' & Hi' & Hb' & Hbo' & Hd').
  exists s'. split.
  { by rewrite run_app, Hrun1. }
  pose proof (run_inv _ _ _ _ _ Hinv1 Hrun') as Hinv'.
  pose proof (run_keeps _ _ _ Hrun') as (_ & _ & _ & _ & _ & _ & Hkeep).
  simpl in Hd'. rewrite (Hd Hcl) in Hd'. simpl in Hd'.
  assert (Hw' : world s' = destroy_all p (buf (idle (pool s)) ++ l) w').
  { destruct Hinv' as (_ & _ & _ & _ & _ & _ & _ & _ & _ & ->).
    by rewrite Hd'. }
  split_and!; try done.
  - by apply Hkeep.
  - intros d0 Hd0. rewrite Hw'. apply destroy_all_Some. by rewrite Hdf.
  - intros Hd0. rewrite Hw'. apply destroy_all_None. by rewrite Hdf.
Qed.

End Properties.

(** * The properties on the concrete pool *)

Section OnTheDemoPool.
Import Demo.

(** [New] on a constructor whose third call fails: objects 1 and 2 are
    destroyed in that order, no pool is returned. *)
Lemma New_rolls_back_witness :
  NewFunc (failing_config 3 3) = Some (failing_at 3) ∧
  1 ≤ 3 ≤ Z.to_nat (Count (failing_config 3 3)) ∧
  construct (failing_at 3) (3 - 1) w0 = Some ([1; 2], (2, [])) ∧
  failing_at 3 (2, []) = ((0, Some boom), (3, [])) ∧
  New 0 (failing_config 3 3) w0 =
    Returns ((None, Some (fmt_Errorf_w_v ErrNew boom)), (3, [1; 2])).
Proof.
  split_and!; [reflexivity|simpl; lia|simpl; lia|reflexivity|reflexivity|].
  refine (proj1 (New_rolls_back 0 (failing_config 3 3) w0 3 (failing_at 3)
                   [1; 2] (2, []) (3, []) 0 boom eq_refl _ eq_refl eq_refl)).
  simpl; lia.
Defined.

(** The error [New] returns does not have the constructor's error in its
    [Unwrap] chain: it wraps [ErrNew] and only shows the message of the
    constructor's error. *)
Lemma New_error_does_not_wrap_cause :
  ∃ err w,
    New 0 (failing_config 3 3) w0 = Returns ((None, Some err), w) ∧
    failing_at 3 (2, []) = ((0, Some boom), (3, [])) ∧
    Unwrap err = Some ErrNew ∧
    Unwrap ErrNew = None ∧
    errors_Is err boom = false ∧
    errors_Is err ErrNew = true.
Proof. eexists _, _. by split_and!. Qed.




(** A pool with one idle object and a token that is already cancelled:
    [Get] may commit to the first case of its [select], return the object
    with a nil error and leave the queue empty. *)
Lemma Get_with_cancelled_context_may_take_an_object :
  ∃ p w' p',
    New 0 (config 1) w0 = Returns ((Some p, None), w') ∧
    buf (idle p) = [1] ∧
    Get 0 case_idle cancelled p = Some ((1, None), p') ∧
    ((1, None), p') ∈ Get_outcomes 0 cancelled p ∧
    buf (idle p') = [].
Proof.
  eexists _, _, _. split_and!; try reflexivity.
  apply list_elem_of_here.
Qed.

(** A, B, C = 7, 8, 9 put into a pool with nothing idle come out in that
    order. *)
Lemma idle_objects_are_FIFO_witness :
  chan_len (idle (lent_out 3)) + length [7; 8; 9]
    ≤ chan_cap (idle (lent_out 3)) ∧
  3 ≤ chan_len (idle (lent_out 3)) + length [7; 8; 9] ∧
  ∃ p1 p2,
    Puts [7; 8; 9] (lent_out 3) = Some p1 ∧
    Gets 0 3 ctx_active p1 = Some ([7; 8; 9], p2) ∧
    buf (idle p2) = [].
Proof.
  split; [vm_compute; lia|]. split; [vm_compute; lia|].
  apply (idle_objects_are_FIFO 0 (lent_out 3) ctx_active [7; 8; 9] 3);
    vm_compute; lia.
Defined.

Lemma Stop_is_idempotent_witness :
  buf (stopping (lent_out 0)) = [] ∧
  closed (stopping (Stop 0 (lent_out 0) w0).1.2) = true ∧
  Stop 0 (Stop 0 (lent_out 0) w0).1.2 (Stop 0 (lent_out 0) w0).2 =
    (pc_return, (Stop 0 (lent_out 0) w0).1.2, (Stop 0 (lent_out 0) w0).2).
Proof.
  split; [reflexivity|].
  exact (proj2 (proj2 (Stop_is_idempotent 0 (lent_out 0) w0 eq_refl))).
Defined.

Lemma racing_Stop_panics_witness :
  ∃ p w',
    New 0 (config 2) w0 = Returns ((Some p, None), w') ∧
    run 0 [] (start p w') = Some (start p w') ∧
    closed (stopping (pool (start p w'))) = false ∧
    ∃ s1 s2,
      run 0 [call_Stop; call_Stop; step_Stop 0; step_Stop 1] (start p w')
        = Some s1 ∧
      stops s1 = [pc_close; pc_close] ∧
      closed (stopping (pool s1)) = false ∧
      run 0 [step_Stop 0; step_Stop 1] s1 = Some s2 ∧
      stops s2 = [pc_loop 2; pc_panic] ∧
      closed (stopping (pool s2)) = true ∧
      Stop_step 0 pc_panic (pool s2) (world s2) = None.
Proof.
  eexists _, _.
  split; [vm_compute; reflexivity|]. split; [reflexivity|].
  split; [reflexivity|].
  refine (racing_Stop_panics 0 (config 2) w0 _ _ [] (start _ _) _ _ _);
    vm_compute; reflexivity.
Defined.

(** C7, where the code breaks it.  Capacity 2; object 1 is borrowed;
    [Stop] raises the signal and receives object 2; object 1 is put back.
    The stop signal is raised and [Stop] is about to call the destructor on
    object 2, yet a [Get] with an active token may commit to the first case
    of its [select]: it returns object 1 with a nil error.  The object that
    was put back after [Stop] had begun is borrowed again; [Stop] has not
    destroyed it. *)
Lemma Get_takes_back_object_put_while_stopping :
  ∃ p w' s s',
    New 0 (config 2) w0 = Returns ((Some p, None), w') ∧
    run 0 [call_Get ctx_active case_idle; call_Stop; step_Stop 0;
           step_Stop 0; step_Stop 0; call_Put 1] (start p w') = Some s ∧
    closed (stopping (pool s)) = true ∧
    stops s = [pc_destroy 2 1] ∧
    buf (idle (pool s)) = [1] ∧ borrowed s = [] ∧
    step 0 (call_Get ctx_active case_idle) s = Some s' ∧
    Get 0 case_idle ctx_active (pool s) = Some ((1, None), pool s') ∧
    ((1, None), pool s') ∈ Get_outcomes 0 ctx_active (pool s) ∧
    borrowed s' = [1] ∧ buf (idle (pool s')) = [] ∧
    destroyed s' = [] ∧ world s' = (2, []).
Proof.
  eexists _, _, _, _.
  split; [vm_compute; reflexivity|]. split; [vm_compute; reflexivity|].
  split; [reflexivity|]. split; [reflexivity|]. split; [reflexivity|].
  split; [reflexivity|]. split; [vm_compute; reflexivity|].
  split; [reflexivity|]. split; [apply list_elem_of_here|].
  split; [reflexivity|]. split; [reflexivity|]. split; reflexivity.
Qed.

Lemma Put_of_borrowed_finds_room_witness :
  ∃ p w' s,
    New 0 (config 2) w0 = Returns ((Some p, None), w') ∧
    run 0 get_then_stop (start p w') = Some s ∧
    1 ∈ borrowed s ∧
    chan_len (idle (pool s)) < chan_cap (idle (pool s)) ∧
    ∃ s', step 0 (call_Put 1) s = Some s' ∧
          Put 1 (pool s) = Some (pool s') ∧
          buf (idle (pool s')) = buf (idle (pool s)) ++ [1] ∧
          borrowed s ≡ₚ 1 :: borrowed s' ∧
          stopping (pool s') = stopping (pool s) ∧
          stops s' = stops s ∧ world s' = world s ∧
          destroyed s' = destroyed s.
Proof.
  eexists _, _, _.
  split; [vm_compute; reflexivity|]. split; [vm_compute; reflexivity|].
  split; [apply list_elem_of_here|].
  refine (Put_of_borrowed_finds_room 0 (config 2) w0 _ _ get_then_stop _ 1
            _ _ _);
    [vm_compute; reflexivity..|apply list_elem_of_here].
Defined.


End OnTheDemoPool.

(** * The further properties on the concrete pool *)

Section MoreOnTheDemoPool.
Import Demo.

Lemma New_error_kinds_witness :
  New 0 (config (-1)) w0 =
    Returns ((None,
              Some (errors_New "count must be greater than or equal to zero")),
             w0) ∧
  (errors_Is (errors_New "count must be greater than or equal to zero") ErrNew
     = true ↔ Check (config (-1)) = None).
Proof.
  split; [reflexivity|].
  exact (proj1 (New_error_kinds 0 (config (-1)) w0 w0 _ eq_refl)).
Defined.

Lemma zero_capacity_witness :
  Count (failing_config 0 1) = 0%Z ∧
  NewFunc (failing_config 0 1) ≠ None ∧
  ∃ p, New 0 (failing_config 0 1) w0 = Returns ((Some p, None), w0) ∧
       buf (idle p) = [] ∧ chan_cap (idle p) = 0 ∧
       Get_outcomes 0 ctx_active p = [] ∧
       (∀ e, Get_outcomes 0 (ctx_cancelled e) p = [((0, Some e), p)]) ∧
       Stop 0 p w0 = (pc_end, with_stopping p (close (stopping p)), w0).
Proof.
  split; [reflexivity|]. split; [discriminate|].
  apply (zero_capacity 0 (failing_config 0 1) w0); [reflexivity|discriminate].
Defined.

Lemma New_then_Gets_witness :
  ∃ p w',
    New 0 (config 3) w0 = Returns ((Some p, None), w') ∧
    ∃ f p2,
      NewFunc (config 3) = Some f ∧
      construct f (Z.to_nat (Count (config 3))) w0 = Some (buf (idle p), w') ∧
      Gets 0 (Z.to_nat (Count (config 3))) cancelled p
        = Some (buf (idle p), p2) ∧
      buf (idle p2) = [] ∧
      Get_outcomes 0 ctx_active p2 = [].
Proof.
  eexists _, _. split; [vm_compute; reflexivity|].
  apply (New_then_Gets 0 (config 3) w0). vm_compute; reflexivity.
Defined.

Lemma Get_blocks_iff_witness :
  closed (idle (lent_out 2)) = false ∧
  buf (stopping (lent_out 2)) = [] ∧
  (Get_outcomes 0 ctx_active (lent_out 2) = [] ↔
   buf (idle (lent_out 2)) = [] ∧ ctx_active = ctx_active ∧
   closed (stopping (lent_out 2)) = false).
Proof.
  split; [reflexivity|]. split; [reflexivity|].
  apply (Get_blocks_iff 0 (lent_out 2) ctx_active); reflexivity.
Defined.

Lemma Get_object_xor_error_witness :
  Get 0 case_Done cancelled three_idle
    = Some ((0, Some context_Canceled), three_idle) ∧
  ((Some context_Canceled = None ∧ case_Done = case_idle ∧
    ∃ ch, recv 0 (idle three_idle) = Some (0, ch) ∧
          three_idle = with_idle three_idle ch) ∨
   (∃ e, Some context_Canceled = Some e ∧ 0 = 0 ∧ three_idle = three_idle ∧
         (cancelled = ctx_active → e = ErrStoppingOrStopped) ∧
         (case_Done = case_Done → cancelled = ctx_cancelled e) ∧
         (case_Done = case_stopping → e = ErrStoppingOrStopped))).
Proof.
  split; [reflexivity|].
  apply (Get_object_xor_error 0 three_idle three_idle cancelled case_Done).
  reflexivity.
Defined.

Lemma Get_then_Put_rotates_witness :
  buf (idle three_idle) = 1 :: [2; 3] ∧
  chan_len (idle three_idle) ≤ chan_cap (idle three_idle) ∧
  ∃ p1 p2,
    Get 0 case_idle ctx_active three_idle = Some ((1, None), p1) ∧
    Put 1 p1 = Some p2 ∧
    buf (idle p2) = [2; 3] ++ [1] ∧
    chan_len (idle p2) = chan_len (idle three_idle) ∧
    buf (idle p2) ≡ₚ buf (idle three_idle) ∧
    p2 = with_idle three_idle
           (Chan ([2; 3] ++ [1]) (ccap (idle three_idle))
                 (closed (idle three_idle))).
Proof.
  split; [reflexivity|]. split; [vm_compute; lia|].
  apply (Get_then_Put_rotates 0 three_idle ctx_active 1 [2; 3]);
    [reflexivity|vm_compute; lia].
Defined.

Lemma run_keeps_witness :
  ∃ s',
    run 0 stop_with_busy_object (start three_idle w0) = Some s' ∧
    chan_cap (idle (pool s')) = 3 ∧
    closed (idle (pool s')) = false.
Proof.
  eexists. split; [vm_compute; reflexivity|].
  refine (let H := run_keeps 0 stop_with_busy_object
                      (start three_idle w0) _ _ in
          conj (proj1 H) (proj1 (proj2 (proj2 (proj2 H)))));
    vm_compute; reflexivity.
Defined.

Lemma at_most_Count_borrowed_witness :
  ∃ p w' s,
    New 0 (config 1) w0 = Returns ((Some p, None), w') ∧
    run 0 [call_Get ctx_active case_idle] (start p w') = Some s ∧
    length (borrowed s) ≤ Z.to_nat (Count (config 1)) ∧
    (length (borrowed s) = Z.to_nat (Count (config 1)) →
     closed (stopping (pool s)) = false →
     Get_outcomes 0 ctx_active (pool s) = [] ∧
     ∀ e, Get_outcomes 0 (ctx_cancelled e) (pool s)
            = [((0, Some e), pool s)]).
Proof.
  eexists _, _, _.
  split; [vm_compute; reflexivity|]. split; [vm_compute; reflexivity|].
  refine (at_most_Count_borrowed 0 (config 1) w0 _ _
            [call_Get ctx_active case_idle] _ _ _); vm_compute; reflexivity.
Defined.

Lemma surplus_Put_blocks_witness :
  ∃ p w' s,
    New 0 (config 2) w0 = Returns ((Some p, None), w') ∧
    run 0 [call_Get cancelled case_idle; call_Put 1] (start p w') = Some s ∧
    (0 < Count (config 2))%Z ∧
    borrowed s = [] ∧
    closed (stopping (pool s)) = false ∧
    0 < chan_cap (idle (pool s)) ∧
    chan_len (idle (pool s)) = chan_cap (idle (pool s)) ∧
    Put 1 (pool s) = None.
Proof.
  eexists _, _, _.
  split; [vm_compute; reflexivity|]. split; [vm_compute; reflexivity|].
  split; [reflexivity|]. split; [reflexivity|]. split; [reflexivity|].
  refine (surplus_Put_blocks 0 (config 2) w0 _ _
            [call_Get cancelled case_idle; call_Put 1] _ 1 _ _ _ _ _);
    vm_compute; reflexivity.
Defined.

Lemma no_destructor_no_effect_witness :
  ∃ p w' s,
    DestroyFunc (mkConfig 1 (Some fresh) None) = None ∧
    New 0 (mkConfig 1 (Some fresh) None) w0 = Returns ((Some p, None), w') ∧
    run 0 stop_to_end (start p w') = Some s ∧
    stops s = [pc_end] ∧
    world s = w'.
Proof.
  eexists _, _, _. split; [reflexivity|].
  split; [vm_compute; reflexivity|]. split; [vm_compute; reflexivity|].
  split; [reflexivity|].
  refine (no_destructor_no_effect 0 (mkConfig 1 (Some fresh) None) w0 _ _
            stop_to_end _ _ _ _); [reflexivity|vm_compute; reflexivity..].
Defined.

Lemma Stop_alone_witness :
  buf (stopping three_idle) = [] ∧
  closed (stopping three_idle) = false ∧
  closed (idle three_idle) = false ∧
  chan_len (idle three_idle) ≤ chan_cap (idle three_idle) ∧
  chan_len (idle three_idle) = chan_cap (idle three_idle) ∧
  Stop 0 three_idle w0 =
    (pc_end,
     with_stopping (with_idle three_idle (Chan [] 3 false))
                   (close (stopping three_idle)),
     (0, [1; 2; 3])).
Proof.
  split; [reflexivity|]. split; [reflexivity|]. split; [reflexivity|].
  split; [vm_compute; lia|]. split; [reflexivity|].
  refine (proj1 (Stop_alone 0 three_idle w0 eq_refl eq_refl eq_refl _) eq_refl).
  vm_compute; lia.
Defined.

Lemma Stop_completes_witness :
  ∃ p w' s,
    New 0 (config 2) w0 = Returns ((Some p, None), w') ∧
    run 0 get_then_stop (start p w') = Some s ∧
    stops s !! 0 = Some (pc_loop 2) ∧
    borrowed s ≡ₚ [1] ∧
    ∃ s', run 0 (finish_Stop 0 (chan_len (idle (pool s))) [1]) s = Some s' ∧
          stops s' !! 0 = Some pc_end ∧
          buf (idle (pool s')) = [] ∧
          borrowed s' = [] ∧
          destroyed s' = destroyed s ++ buf (idle (pool s)) ++ [1] ∧
          world s' = destroy_all p (buf (idle (pool s)) ++ [1]) (world s) ∧
          (∀ d, DestroyFunc (config 2) = Some d →
             world s' = foldl (λ w object, d object w) (world s)
                              (buf (idle (pool s)) ++ [1])) ∧
          (DestroyFunc (config 2) = None → world s' = world s).
Proof.
  eexists _, _, _.
  split; [vm_compute; reflexivity|]. split; [vm_compute; reflexivity|].
  split; [reflexivity|]. split; [reflexivity|].
  refine (Stop_completes 0 (config 2) w0 _ _ get_then_stop _ 0 2 [1]
            _ _ _ _); [vm_compute; reflexivity..|reflexivity].
Defined.

(** The same run, evaluated: the destructor log ends as [2; 1]. *)
Lemma Stop_completes_log :
  ∃ p w' s s',
    New 0 (config 2) w0 = Returns ((Some p, None), w') ∧
    run 0 get_then_stop (start p w') = Some s ∧
    world s = (2, []) ∧
    run 0 (finish_Stop 0 (chan_len (idle (pool s))) [1]) s = Some s' ∧
    world s' = (2, [2; 1]).
Proof.
  eexists _, _, _, _.
  split; [vm_compute; reflexivity|]. split; [vm_compute; reflexivity|].
  split; [reflexivity|]. split; [vm_compute; reflexivity|]. reflexivity.
Qed.

Lemma Stop_call_completes_witness :
  ∃ p w' s,
    New 0 (config 2) w0 = Returns ((Some p, None), w') ∧
    run 0 [call_Get ctx_active case_idle] (start p w') = Some s ∧
    closed (stopping (pool s)) = false ∧
    borrowed s ≡ₚ [1] ∧
    ∃ s', run 0 (begin_Stop (length (stops s))
                 ++ finish_Stop (length (stops s))
                                (chan_len (idle (pool s))) [1]) s = Some s' ∧
          stops s' !! length (stops s) = Some pc_end ∧
          closed (stopping (pool s')) = true ∧
          buf (idle (pool s')) = [] ∧
          borrowed s' = [] ∧
          destroyed s' = buf (idle (pool s)) ++ [1] ∧
          world s' = destroy_all p (buf (idle (pool s)) ++ [1]) w' ∧
          (∀ d, DestroyFunc (config 2) = Some d →
             world s' = foldl (λ w object, d object w) w'
                              (buf (idle (pool s)) ++ [1])) ∧
          (DestroyFunc (config 2) = None → world s' = w').
Proof.
  eexists _, _, _.
  split; [vm_compute; reflexivity|]. split; [vm_compute; reflexivity|].
  split; [reflexivity|]. split; [reflexivity|].
  refine (Stop_call_completes 0 (config 2) w0 _ _
            [call_Get ctx_active case_idle] _ [1] _ _ _ _);
    [vm_compute; reflexivity..|reflexivity].
Defined.

End MoreOnTheDemoPool.
